(** * PRT-7 decoder: a shallow embedding of [main.cpp] and its properties

    The program reads text lines, parses each into a LOAD or a MAP frame
    ([parseLinea]), and applies it to two hand-written linked structures:
    a circular doubly linked list holding the alphabet ([RotorDeMapeo]) and
    a doubly linked list collecting the decoded characters ([ListaDeCarga]).

    Pointers are modelled as optional addresses into a node store
    ([None] is [nullptr]); a dereference of [nullptr] or of an address that
    was never allocated has no result.  Text written to [std::cout] is
    collected by a small writer monad. *)

From Stdlib Require Import ZArith Ascii String DecimalString List Lia.
From stdpp Require Import base list.

Open Scope Z_scope.

(** ** Characters and text *)

(** A C string is the list of its characters up to the terminating NUL. *)
Abbreviation texto := (list ascii) (only parsing).

Definition T (s : string) : texto := list_ascii_of_string s.

(** The numeric value of a [char].  The comparisons of the program only
    distinguish values inside the 7-bit range from the rest, so the
    signedness of [char] does not matter for them. *)
Definition code (ch : ascii) : Z := Z.of_nat (nat_of_ascii ch).

Definition char (z : Z) : ascii := ascii_of_nat (Z.to_nat (z mod 256)).

Definition NUL : ascii := char 0.
Definition endl : texto := [char 10].

(** [isspace] in the "C" locale: space, \t, \n, \v, \f, \r. *)
Definition isspace (ch : ascii) : bool :=
  (code ch =? 32) || ((9 <=? code ch) && (code ch <=? 13)).

Definition isdigit (ch : ascii) : bool :=
  (48 <=? code ch) && (code ch <=? 57).

(** [tolower] in the "C" locale. *)
Definition tolower (ch : ascii) : ascii :=
  if (65 <=? code ch) && (code ch <=? 90) then char (code ch + 32) else ch.

(** [operator<<] for an [int]. *)
Definition show_int (n : Z) : texto := T (NilZero.string_of_int (Z.to_int n)).

(** ** Output and faults *)

(** A computation either faults (null or dangling dereference, or a walk
    that never ends) or returns a value together with the text it wrote to
    [std::cout]. *)
Definition M (A : Type) : Type := option (A * texto).

Definition ret {A} (a : A) : M A := Some (a, []).

Definition bind {A B} (m : M A) (k : A -> M B) : M B :=
  match m with
  | None => None
  | Some (a, o1) =>
      match k a with
      | None => None
      | Some (b, o2) => Some (b, o1 ++ o2)
      end
  end.

Definition cout (s : texto) : M unit := Some (tt, s).

Definition deref {A} (o : option A) : M A :=
  match o with
  | Some a => ret a
  | None => None
  end.

Notation "'let*' x ':=' m 'in' k" := (bind m (fun x => k))
  (at level 10, x pattern, m at level 100, k at level 200).
Notation "m ';;' k" := (bind m (fun _ => k))
  (at level 100, k at level 200, right associativity).

(** ** Nodes *)

Definition ptr := option nat.

Module NodoCarga.
Record t := mk { dato : ascii; prev : ptr; next : ptr }.
(** [NodoCarga(char d)] *)
Definition new (d : ascii) : t := mk d None None.
Definition set_next (p : ptr) (n : t) : t := mk (dato n) (prev n) p.
Definition set_prev (p : ptr) (n : t) : t := mk (dato n) p (next n).
End NodoCarga.

Module NodoRotor.
Record t := mk { c : ascii; prev : ptr; next : ptr }.
(** [NodoRotor(char ch)] *)
Definition new (ch : ascii) : t := mk ch None None.
Definition set_next (p : ptr) (n : t) : t := mk (c n) (prev n) p.
Definition set_prev (p : ptr) (n : t) : t := mk (c n) p (next n).
End NodoRotor.

(** A write through a pointer: [p->field = v].  It has no result when [p]
    is not the address of an allocated node. *)
Definition escribir {N} (mem : list N) (p : ptr) (f : N -> N) : option (list N) :=
  match p with
  | None => None
  | Some a =>
      match mem !! a with
      | Some n => Some (<[a := f n]> mem)
      | None => None
      end
  end.

(** A read through a pointer: [p->field]. *)
Definition leer {N} (mem : list N) (p : ptr) : option N :=
  match p with
  | None => None
  | Some a => mem !! a
  end.

(** For the destructors: a store in which a node may have been freed
    ([None]).  [delete p] has no result on a node freed before or never
    allocated; a read through a pointer to a freed node has none either. *)
Definition delete {N} (mem : list (option N)) (p : ptr) : option (list (option N)) :=
  match p with
  | None => Some mem
  | Some a =>
      match mem !! a with
      | Some (Some _) => Some (<[a := None]> mem)
      | _ => None
      end
  end.

(** The loop of both destructors,
    [while (cur) { nx = cur->next; delete cur; cur = nx; }]. *)
Fixpoint liberar {N} (next : N -> ptr) (fuel : nat) (mem : list (option N)) (cur : ptr)
  : option (list (option N)) :=
  match cur with
  | None => Some mem
  | Some a =>
      match fuel with
      | O => None
      | S fuel' =>
          match mem !! a with
          | Some (Some n) =>
              let nx := next n in
              match delete mem cur with
              | Some mem1 => liberar next fuel' mem1 nx
              | None => None
              end
          | _ => None
          end
      end
  end.

(** ** ListaDeCarga *)

Module ListaDeCarga.
Record t := mk { mem : list NodoCarga.t; head : ptr; tail : ptr }.

(** [ListaDeCarga()] *)
Definition new : t := mk [] None None.

Definition insertarAlFinal (dato : ascii) (l : t) : M t :=
  let n := Some (length (mem l)) in
  let mem1 := mem l ++ [NodoCarga.new dato] in
  match tail l with
  | None => ret (mk mem1 n n)
  | Some _ =>
      let* mem2 := deref (escribir mem1 (tail l) (NodoCarga.set_next n)) in
      let* mem3 := deref (escribir mem2 n (NodoCarga.set_prev (tail l))) in
      ret (mk mem3 (head l) n)
  end.

(** The walk [for (cur = head; cur; cur = cur->next)] shared by the two
    printing methods, returning the characters met.  A walk over more
    nodes than the store holds visits some node twice and so never ends;
    the fuel cuts it off there. *)
Fixpoint recorrer (fuel : nat) (mem : list NodoCarga.t) (cur : ptr) : option texto :=
  match cur with
  | None => Some []
  | Some a =>
      match fuel with
      | O => None
      | S fuel' =>
          match mem !! a with
          | None => None
          | Some n =>
              match recorrer fuel' mem (NodoCarga.next n) with
              | None => None
              | Some r => Some (NodoCarga.dato n :: r)
              end
          end
      end
  end.

Definition contenido (l : t) : option texto :=
  recorrer (length (mem l)) (mem l) (head l).

Definition imprimirMensaje (l : t) : M unit :=
  cout (T "Mensaje: ") ;;
  let* cs := deref (contenido l) in
  cout (concat (map (fun d => T "[" ++ [if Ascii.eqb d " " then " "%char else d] ++ T "]") cs)) ;;
  cout endl.

Definition imprimirMensajeFinal (l : t) : M unit :=
  cout (T "MENSAJE OCULTO ENSAMBLADO:") ;; cout endl ;;
  let* cs := deref (contenido l) in
  cout cs ;;
  cout endl.

(** [~ListaDeCarga()]: the store it leaves. *)
Definition destructor (l : t) : option (list (option NodoCarga.t)) :=
  liberar NodoCarga.next (length (mem l)) (map Some (mem l)) (head l).
End ListaDeCarga.

(** ** RotorDeMapeo *)

Module RotorDeMapeo.
Record t := mk { mem : list NodoRotor.t; head : ptr; size : Z }.

(** The state of the constructor's loop: the store, [first], [prev] and
    [size]. *)
Definition ctor_paso (st : list NodoRotor.t * ptr * ptr * Z) (ch : ascii)
  : option (list NodoRotor.t * ptr * ptr * Z) :=
  let '(mem, first, prev, size) := st in
  let n := Some (length mem) in
  let mem1 := mem ++ [NodoRotor.new ch] in
  let first1 := match first with None => n | Some _ => first end in
  match prev with
  | None => Some (mem1, first1, n, size + 1)
  | Some _ =>
      match escribir mem1 prev (NodoRotor.set_next n) with
      | None => None
      | Some mem2 =>
          match escribir mem2 n (NodoRotor.set_prev prev) with
          | None => None
          | Some mem3 => Some (mem3, first1, n, size + 1)
          end
      end
  end.

(** The characters ['A'] to ['Z'] the loop runs over. *)
Definition letras : texto := map (fun i => char (65 + Z.of_nat i)) (seq 0 26).

(** [RotorDeMapeo()] *)
Definition new : option t :=
  match foldl (fun st ch => match st with Some s => ctor_paso s ch | None => None end)
              (Some ([], None, None, 0)) letras with
  | None => None
  | Some (mem, first, prev, size) =>
      match first, prev with
      | Some _, Some _ =>
          match escribir mem first (NodoRotor.set_prev prev) with
          | None => None
          | Some mem1 =>
              match escribir mem1 prev (NodoRotor.set_next first) with
              | None => None
              | Some mem2 => Some (mk mem2 first size)
              end
          end
      | _, _ => Some (mk mem None size)
      end
  end.

(** [cur = cur->next], [k] times. *)
Fixpoint avanzar (mem : list NodoRotor.t) (k : nat) (cur : ptr) : option ptr :=
  match k with
  | O => Some cur
  | S k' =>
      match leer mem cur with
      | None => None
      | Some n => avanzar mem k' (NodoRotor.next n)
      end
  end.

(** The effective displacement computed by [rotar]; [%] truncates. *)
Definition efectivo (N size : Z) : Z :=
  let effective := Z.rem N size in
  if effective <? 0 then effective + size else effective.

Definition rotar (N : Z) (r : t) : M t :=
  match head r with
  | None => ret r
  | Some _ =>
      if size r <=? 1 then ret r
      else
        let effective := efectivo N (size r) in
        let* h := deref (avanzar (mem r) (Z.to_nat effective) (head r)) in
        cout (T " -> ROTANDO ROTOR " ++ (if 0 <=? N then T "+" else []) ++ show_int N
              ++ T " (efectivo: +" ++ show_int effective ++ T ")") ;;
        cout endl ;;
        ret (mk (mem r) h (size r))
  end.

Definition getMapeo (inp : ascii) (r : t) : option ascii :=
  if Ascii.eqb inp " " then Some " "%char
  else
    let inp := if (code "a" <=? code inp) && (code inp <=? code "z")
               then char (code inp - code "a" + code "A") else inp in
    if (code inp <? code "A") || (code "Z" <? code inp) then Some inp
    else
      let index := code inp - code "A" in
      match avanzar (mem r) (Z.to_nat index) (head r) with
      | None => None
      | Some cur =>
          match leer (mem r) cur with
          | None => None
          | Some n => Some (NodoRotor.c n)
          end
      end.

(** The characters read by the loop of [imprimirEstado]. *)
Fixpoint leer_desde (mem : list NodoRotor.t) (k : nat) (cur : ptr) : option texto :=
  match k with
  | O => Some []
  | S k' =>
      match leer mem cur with
      | None => None
      | Some n =>
          match leer_desde mem k' (NodoRotor.next n) with
          | None => None
          | Some r => Some (NodoRotor.c n :: r)
          end
      end
  end.

Definition imprimirEstado (r : t) : M unit :=
  match head r with
  | None => ret tt
  | Some _ =>
      cout (T "Estado rotor (desde head): ") ;;
      let* cs := deref (leer_desde (mem r) (Z.to_nat (size r)) (head r)) in
      cout cs ;;
      cout endl
  end.

(** [~RotorDeMapeo()]: the ring is cut open before [head], then freed node
    by node. *)
Definition destructor (r : t) : option (list (option NodoRotor.t)) :=
  match head r with
  | None => Some (map Some (mem r))
  | Some _ =>
      match leer (mem r) (head r) with
      | None => None
      | Some n =>
          match escribir (mem r) (NodoRotor.prev n) (NodoRotor.set_next None) with
          | None => None
          | Some mem1 =>
              liberar NodoRotor.next (length mem1) (map Some mem1) (head r)
          end
      end
  end.
End RotorDeMapeo.


(** ** Frames *)

(** [TramaLoad] and [TramaMap], the two classes derived from [TramaBase];
    the virtual call [trama->procesar(...)] is the match of [procesar]. *)
Inductive Trama :=
| TramaLoad (fragmento : ascii)
| TramaMap (desplazamiento : Z).

(** [miCarga] and [miRotor] of [main]. *)
Record Estado := { carga : ListaDeCarga.t; rotor : RotorDeMapeo.t }.

Definition procesar (trama : Trama) (st : Estado) : M Estado :=
  match trama with
  | TramaLoad fragmento =>
      cout (T "Trama: [L, "
            ++ (if Ascii.eqb fragmento " " then T "Space" else [fragmento])
            ++ T "] -> Procesando...") ;;
      let* dec := deref (RotorDeMapeo.getMapeo fragmento (rotor st)) in
      cout (T " -> Fragmento '" ++ [fragmento]
            ++ T "' decodificado como '" ++ [dec] ++ T "'. ") ;;
      let* carga1 := ListaDeCarga.insertarAlFinal dec (carga st) in
      ListaDeCarga.imprimirMensaje carga1 ;;
      ret {| carga := carga1; rotor := rotor st |}
  | TramaMap desplazamiento =>
      cout (T "Trama: [M," ++ show_int desplazamiento ++ T "] -> Procesando... ") ;;
      let* rotor1 := RotorDeMapeo.rotar desplazamiento (rotor st) in
      RotorDeMapeo.imprimirEstado rotor1 ;;
      ret {| carga := carga st; rotor := rotor1 |}
  end.

(** ** C string functions used by the parser *)

(** The characters of a [const char*] argument: those before the first NUL. *)
Fixpoint c_str (s : texto) : texto :=
  match s with
  | [] => []
  | ch :: r => if Ascii.eqb ch NUL then [] else ch :: c_str r
  end.

(** [strncpy(buffer, lineaC, sizeof(buffer)); buffer[sizeof(buffer)-1] = '\0';]
    with [char buffer[128]]: the string left in [buffer]. *)
Definition copiar_a_buffer (lineaC : texto) : texto := take 127 (c_str lineaC).

(** The first loop of [trim]: skip the leading whitespace. *)
Fixpoint saltar_espacios (s : texto) : texto :=
  match s with
  | [] => []
  | ch :: r => if isspace ch then saltar_espacios r else s
  end.

(** The second loop of [trim] cuts whitespace off the end; that is the
    first loop run over the reversed string. *)
Definition cortar_final (s : texto) : texto := rev (saltar_espacios (rev s)).

Definition trim (s : texto) : texto := cortar_final (saltar_espacios s).

(** [strtok(s, ",")]: skip the delimiters in front, fail at the end of the
    string, otherwise cut the token at the next delimiter. The second
    component is the position saved for the call [strtok(nullptr, ",")]. *)
Fixpoint saltar_comas (s : texto) : texto :=
  match s with
  | [] => []
  | ch :: r => if Ascii.eqb ch "," then saltar_comas r else s
  end.

Fixpoint hasta_coma (s : texto) : texto * texto :=
  match s with
  | [] => ([], [])
  | ch :: r =>
      if Ascii.eqb ch "," then ([], r)
      else let '(tok, resto) := hasta_coma r in (ch :: tok, resto)
  end.

Definition strtok (s : texto) : option texto * texto :=
  match saltar_comas s with
  | [] => (None, [])
  | s1 => let '(tok, resto) := hasta_coma s1 in (Some tok, resto)
  end.

(** [strcasecmp] in the "C" locale. *)
Fixpoint strcasecmp (a b : texto) : Z :=
  match a, b with
  | [], [] => 0
  | [], y :: _ => 0 - code (tolower y)
  | x :: _, [] => code (tolower x)
  | x :: a1, y :: b1 =>
      let d := code (tolower x) - code (tolower y) in
      if d =? 0 then strcasecmp a1 b1 else d
  end.

(** The digits in front of [s], accumulated in base ten. *)
Fixpoint acumular (acc : Z) (s : texto) : Z :=
  match s with
  | [] => acc
  | ch :: r => if isdigit ch then acumular (acc * 10 + (code ch - 48)) r else acc
  end.

Definition LONG_MIN : Z := - 2 ^ 63.
Definition LONG_MAX : Z := 2 ^ 63 - 1.

(** [strtol(s, NULL, 10)]: whitespace, an optional sign, digits; the value
    is clamped to the range of [long]. *)
Definition strtol (s : texto) : Z :=
  let s1 := saltar_espacios s in
  let '(neg, s2) :=
    match s1 with
    | ch :: r =>
        if Ascii.eqb ch "-" then (true, r)
        else if Ascii.eqb ch "+" then (false, r)
        else (false, s1)
    | [] => (false, s1)
    end in
  let v := acumular 0 s2 in
  let v := if neg then - v else v in
  Z.max LONG_MIN (Z.min LONG_MAX v).

(** Conversion to a 32-bit [int], wrapping. *)
Definition to_int (z : Z) : Z := (z + 2 ^ 31) mod 2 ^ 32 - 2 ^ 31.

(** [atoi]; the C library of the Linux targets computes it as
    [(int) strtol(s, NULL, 10)]. *)
Definition atoi (s : texto) : Z := to_int (strtol s).

(** ** The parser *)

(** [(token[0] == may || token[0] == min) && token[1] == '\0'], for a token
    that is not empty. *)
Definition es_tipo (token : texto) (may min : ascii) : bool :=
  match token with
  | [ch] => Ascii.eqb ch may || Ascii.eqb ch min
  | _ => false
  end.

(** [s[0]]: the first character, or the terminating NUL. *)
Definition primero (s : texto) : ascii := hd NUL s.

(** The branch [// Trama LOAD] of [parseLinea], from the position [strtok]
    has saved. *)
Definition trama_load (resto : texto) : M (option Trama) :=
  match fst (strtok resto) with
  | None => cout (T "Trama L sin argumento.") ;; cout endl ;; ret None
  | Some arg =>
      let arg := trim arg in
      if (Ascii.eqb (primero arg) "S" || Ascii.eqb (primero arg) "s")
         && (strcasecmp arg (T "Space") =? 0)
      then ret (Some (TramaLoad " "))
      else if (length arg =? 1)%nat then ret (Some (TramaLoad (primero arg)))
      else if (1 <? length arg)%nat then ret (Some (TramaLoad (primero arg)))
      else ret None
  end.

(** The branch [// Trama MAP]. *)
Definition trama_map (resto : texto) : M (option Trama) :=
  match fst (strtok resto) with
  | None => cout (T "Trama M sin argumento.") ;; cout endl ;; ret None
  | Some arg =>
      let arg := trim arg in
      let n := atoi arg in
      ret (Some (TramaMap n))
  end.

(** The chain of tests on the type token. *)
Definition por_tipo (token resto : texto) : M (option Trama) :=
  if es_tipo token "L" "l" then trama_load resto
  else if es_tipo token "M" "m" then trama_map resto
  else
    cout (T "Tipo de trama desconocido: " ++ token) ;; cout endl ;; ret None.

Definition parseLinea (lineaC : texto) : M (option Trama) :=
  let buffer := trim (copiar_a_buffer lineaC) in
  if (length buffer =? 0)%nat then ret None
  else
    let '(token, resto) := strtok buffer in
    match token with
    | None => ret None
    | Some token =>
        let token := trim token in
        if (length token =? 0)%nat then ret None
        else por_tipo token resto
    end.

(** ** The processing loop of [main] *)

(** One turn of the loop, for a line delivered by [leerLinea]. *)
Definition paso (linea : texto) (st : Estado) : M Estado :=
  cout (T "Trama recibida: [" ++ c_str linea ++ T "] ") ;;
  let* trama := parseLinea linea in
  match trama with
  | None =>
      cout (T " -> Trama inválida. Se ignora.") ;; cout endl ;;
      ret st
  | Some trama =>
      let* st1 := procesar trama st in
      cout endl ;;
      ret st1
  end.

Fixpoint bucle (lineas : list texto) (st : Estado) : M Estado :=
  match lineas with
  | [] => ret st
  | linea :: resto =>
      let* st1 := paso linea st in
      bucle resto st1
  end.

(** [main] from the declaration of [miCarga] and [miRotor] on, for a reader
    that was opened and delivers [lineas]; the text about the arguments and
    the opened path is left out. *)
Definition sesion (lineas : list texto) : M Estado :=
  let miCarga := ListaDeCarga.new in
  let* miRotor := deref RotorDeMapeo.new in
  let* st := bucle lineas {| carga := miCarga; rotor := miRotor |} in
  cout (char 10 :: T "---" ++ char 10 :: T "Flujo de datos terminado." ++ [char 10]) ;;
  ListaDeCarga.imprimirMensajeFinal (carga st) ;;
  cout (T "---" ++ char 10 :: T "Liberando memoria... Sistema apagado.") ;; cout endl ;;
  ret st.


(** ** SerialReader *)

Module SerialReader.
(** The reader, as far as [leerLinea] uses it: [f], the characters of the
    opened file that are not read yet, or [None] for the null [FILE*]. *)
Record t := mk { f : option (list ascii) }.

(** [SerialReader()] *)
Definition new : t := mk None.

(** The characters [fgets] takes when it may store [k]: up to the first
    newline, which is taken too, and at most [k]; and what is left. *)
Fixpoint fgets_leer (k : nat) (s : texto) : texto * texto :=
  match k, s with
  | O, _ => ([], s)
  | S _, [] => ([], [])
  | S k', ch :: r =>
      if Ascii.eqb ch (char 10) then ([ch], r)
      else let '(a, b) := fgets_leer k' r in (ch :: a, b)
  end.

(** [fgets(outBuf, n, f)] on a regular file, as the C library of the Linux
    targets has it: [NULL] for [n <= 0]; the empty string, nothing read,
    for [n == 1]; otherwise [NULL] at the end of the file and at most
    [n - 1] characters before it. *)
Definition fgets (n : nat) (s : texto) : option (texto * texto) :=
  match n with
  | O => None
  | S O => Some ([], s)
  | S (S _) =>
      match s with
      | [] => None
      | _ => Some (fgets_leer (n - 1) s)
      end
  end.

(** The loop that cuts [\n] and [\r] off the end of [outBuf]; like the
    second loop of [trim], it is a skip over the reversed string. *)
Fixpoint saltar_fin_de_linea (s : texto) : texto :=
  match s with
  | [] => []
  | ch :: r =>
      if Ascii.eqb ch (char 10) || Ascii.eqb ch (char 13)
      then saltar_fin_de_linea r else s
  end.

Definition quitar_fin_de_linea (s : texto) : texto :=
  rev (saltar_fin_de_linea (rev s)).

(** [leerLinea(outBuf, maxLen)]: [None] for [false], otherwise the string
    left in [outBuf] and the reader after the read. *)
Definition leerLinea (maxLen : nat) (reader : t) : option (texto * t) :=
  match f reader with
  | None => None
  | Some s =>
      match fgets maxLen s with
      | None => None
      | Some (outBuf, resto) =>
          Some (quitar_fin_de_linea (c_str outBuf), mk (Some resto))
      end
  end.
End SerialReader.

(** The loop [while (reader.leerLinea(linea, sizeof(linea)))] of [main],
    with [char linea[256]].  The fuel bounds the number of reads. *)
Fixpoint bucle_lector (fuel : nat) (reader : SerialReader.t) (st : Estado) : M Estado :=
  match fuel with
  | O => None
  | S fuel' =>
      match SerialReader.leerLinea 256 reader with
      | None => ret st
      | Some (linea, reader1) =>
          let* st1 := paso linea st in
          bucle_lector fuel' reader1 st1
      end
  end.

(** [main] from the declaration of [miCarga] and [miRotor] on, for a
    reader opened on a file that holds [archivo]; the text about the
    arguments and the opened path is left out. *)
Definition main_archivo (archivo : texto) : M Estado :=
  let miCarga := ListaDeCarga.new in
  let* miRotor := deref RotorDeMapeo.new in
  let reader := SerialReader.mk (Some archivo) in
  let* st := bucle_lector (S (length archivo)) reader
               {| carga := miCarga; rotor := miRotor |} in
  cout (char 10 :: T "---" ++ char 10 :: T "Flujo de datos terminado." ++ [char 10]) ;;
  ListaDeCarga.imprimirMensajeFinal (carga st) ;;
  cout (T "---" ++ char 10 :: T "Liberando memoria... Sistema apagado.") ;; cout endl ;;
  ret st.

(** ** Specification vocabulary *)

(** The rotor built by the constructor, and its node store. *)
Definition rotor_inicial : RotorDeMapeo.t :=
  match RotorDeMapeo.new with
  | Some r => r
  | None => RotorDeMapeo.mk [] None 0
  end.

Definition anillo : list NodoRotor.t := RotorDeMapeo.mem rotor_inicial.

(** The rotor states the program can be in: the constructed rotor and
    whatever [rotar] makes of a reachable one. *)
Inductive alcanzable : RotorDeMapeo.t -> Prop :=
| alc_new r : RotorDeMapeo.new = Some r -> alcanzable r
| alc_rotar r N r1 o :
    alcanzable r -> RotorDeMapeo.rotar N r = Some (r1, o) -> alcanzable r1.

(** The offset of a rotor: how far the letter under [head] is from ['A']. *)
Definition offset (r : RotorDeMapeo.t) : option Z :=
  match leer (RotorDeMapeo.mem r) (RotorDeMapeo.head r) with
  | Some n => Some (code (NodoRotor.c n) - code "A")
  | None => None
  end.

Definition mayuscula (ch : ascii) : Prop := code "A" <= code ch <= code "Z".
Definition minuscula (ch : ascii) : Prop := code "a" <= code ch <= code "z".

(** The state [main] starts its loop in. *)
Definition estado_inicial : Estado :=
  {| carga := ListaDeCarga.new; rotor := rotor_inicial |}.

(** The message held by the list at the end of a run. *)
Definition mensaje_final (m : M Estado) : option texto :=
  match m with
  | Some (st, _) => ListaDeCarga.contenido (carga st)
  | None => None
  end.

(** The offset of the rotor returned by [rotar], and of the rotor at the
    end of a run. *)
Definition offset_tras (m : M RotorDeMapeo.t) : option Z :=
  match m with
  | Some (r, _) => offset r
  | None => None
  end.

Definition offset_final (m : M Estado) : option Z :=
  match m with
  | Some (st, _) => offset (rotor st)
  | None => None
  end.

(** The node store and the list object that hold the characters [cs]:
    node [i] is at address [i] and is linked to its neighbours. *)
Definition nodo (n i : nat) (d : ascii) : NodoCarga.t :=
  NodoCarga.mk d
    (match i with O => None | S j => Some j end)
    (if (S i =? n)%nat then None else Some (S i)).

Definition nodos (cs : texto) : list NodoCarga.t := imap (nodo (length cs)) cs.

Definition lista_de (cs : texto) : ListaDeCarga.t :=
  ListaDeCarga.mk (nodos cs)
    (match cs with [] => None | _ => Some 0%nat end)
    (match cs with [] => None | _ => Some (pred (length cs)) end).

(** The states the loop of [main] can be in. *)
Inductive estado_alcanzable : Estado -> Prop :=
| ea_inicial r :
    RotorDeMapeo.new = Some r ->
    estado_alcanzable {| carga := ListaDeCarga.new; rotor := r |}
| ea_procesar st trama st1 o :
    estado_alcanzable st -> procesar trama st = Some (st1, o) ->
    estado_alcanzable st1.

(** A sequence of frames applied in order, as the loop does with the
    frames it has parsed. *)
Fixpoint procesar_todas (ts : list Trama) (st : Estado) : M Estado :=
  match ts with
  | [] => ret st
  | t :: ts1 =>
      let* st1 := procesar t st in
      procesar_todas ts1 st1
  end.

(** The frames the parser makes of a list of lines. *)
Definition trama_de (linea : texto) : option Trama :=
  match parseLinea linea with
  | Some (Some t, _) => Some t
  | _ => None
  end.

Definition tramas_de (lineas : list texto) : list Trama := omap trama_de lineas.

(** What the accumulator is expected to receive: the output of [getMapeo]
    for the character of each LOAD frame, in order of arrival, with the
    rotor as the MAP frames before it have left it. *)
Fixpoint decodificados (r : RotorDeMapeo.t) (ts : list Trama) : option texto :=
  match ts with
  | [] => Some []
  | TramaLoad f :: ts1 =>
      match RotorDeMapeo.getMapeo f r, decodificados r ts1 with
      | Some d, Some ds => Some (d :: ds)
      | _, _ => None
      end
  | TramaMap n :: ts1 =>
      match RotorDeMapeo.rotar n r with
      | Some (r1, _) => decodificados r1 ts1
      | None => None
      end
  end.

(** Shapes of text: only whitespace, only commas, no comma, only digits. *)
Definition espacios (s : texto) : Prop := Forall (fun ch => isspace ch = true) s.
Definition comas (s : texto) : Prop := Forall (fun ch => ch = ","%char) s.
Definition sin_coma (s : texto) : Prop := Forall (fun ch => ch <> ","%char) s.
Definition digitos (s : texto) : Prop := Forall (fun ch => isdigit ch = true) s.

(** A token with neither whitespace nor a comma in it. *)
Definition palabra (s : texto) : Prop :=
  s <> [] /\ Forall (fun ch => isspace ch = false /\ ch <> ","%char) s.

(** [s] does not go on with a digit. *)
Definition sin_digito_al_frente (s : texto) : Prop :=
  match s with
  | [] => True
  | ch :: _ => isdigit ch = false
  end.

(** The number written by a string of digits. *)
Definition valor (ds : texto) : Z :=
  fold_left (fun acc ch => acc * 10 + (code ch - 48)) ds 0.

(** The number a lenient prefix parse reads off a text that does not start
    with whitespace: an optional sign, the digits up to the first character
    that is none, and 0 when there is no digit. *)
Inductive prefijo_numerico : texto -> Z -> Prop :=
| pn_menos ds resto :
    digitos ds -> sin_digito_al_frente resto ->
    prefijo_numerico ("-"%char :: ds ++ resto) (- valor ds)
| pn_mas ds resto :
    digitos ds -> sin_digito_al_frente resto ->
    prefijo_numerico ("+"%char :: ds ++ resto) (valor ds)
| pn_digitos ds resto :
    ds <> [] -> digitos ds -> sin_digito_al_frente resto ->
    prefijo_numerico (ds ++ resto) (valor ds)
| pn_nada s :
    isdigit (primero s) = false -> isspace (primero s) = false ->
    primero s <> "-"%char -> primero s <> "+"%char ->
    prefijo_numerico s 0.

(** The text the loop writes for a line the parser gives no frame for:
    the echo of the line, what the parser wrote, and the remark of the
    loop. *)
Definition eco (linea : texto) : texto :=
  T "Trama recibida: [" ++ c_str linea ++ T "] ".

Definition aviso_invalida : texto := T " -> Trama inválida. Se ignora." ++ endl.

(** A token as [trim] leaves it: without a comma, and neither starting nor
    ending with whitespace (so it is not empty); whitespace may stand
    inside it. *)
Definition nucleo (tok : texto) : Prop :=
  sin_coma tok /\ isspace (hd " "%char tok) = false /\
  isspace (List.last tok " "%char) = false.

(** What [strtok] keeps for its next call when the text after the token is
    [fin]: nothing at the end of the buffer, else what follows the comma,
    the whitespace at the end of the buffer cut off. *)
Definition resto_tras (fin : texto) : texto :=
  match fin with
  | [] => []
  | _ :: X => cortar_final X
  end.


(** A LOAD line with its argument, by what the parser's buffer holds: the
    type token is L or l, and the argument is the first field after it
    that is not empty; it holds more than whitespace. *)
Inductive linea_load : texto -> texto -> Prop :=
| ll_argumento e1 cs0 ew1 ty ew2 cs arg fin :
    espacios e1 -> comas cs0 -> espacios ew1 -> espacios ew2 ->
    ty = "L"%char \/ ty = "l"%char ->
    comas cs -> sin_coma arg -> ~ espacios arg ->
    fin = [] \/ (exists resto, fin = ","%char :: resto) ->
    linea_load (e1 ++ cs0 ++ ew1 ++ ty :: ew2 ++ ","%char :: cs ++ arg ++ fin) arg.

(** The rotor after one rotation of the fresh rotor, and the state after
    frames applied to the first state. *)
Definition rotor_tras (N : Z) : RotorDeMapeo.t :=
  match RotorDeMapeo.rotar N rotor_inicial with
  | Some (r, _) => r
  | None => rotor_inicial
  end.

(** The walk from [tail] along [prev]; the program never makes it, the
    links it follows are the ones [insertarAlFinal] sets. *)
Fixpoint recorrer_atras (fuel : nat) (mem : list NodoCarga.t) (cur : ptr) : option texto :=
  match cur with
  | None => Some []
  | Some a =>
      match fuel with
      | O => None
      | S fuel' =>
          match mem !! a with
          | None => None
          | Some n =>
              match recorrer_atras fuel' mem (NodoCarga.prev n) with
              | None => None
              | Some r => Some (NodoCarga.dato n :: r)
              end
          end
      end
  end.

(** Characters inserted one after the other. *)
Fixpoint insertar_todos (cs : texto) (l : ListaDeCarga.t) : M ListaDeCarga.t :=
  match cs with
  | [] => ret l
  | d :: cs1 =>
      let* l1 := ListaDeCarga.insertarAlFinal d l in
      insertar_todos cs1 l1
  end.

(** The lines [leerLinea] delivers until it returns [false]. *)
Fixpoint leer_todas (fuel : nat) (reader : SerialReader.t) : list texto :=
  match fuel with
  | O => []
  | S fuel' =>
      match SerialReader.leerLinea 256 reader with
      | None => []
      | Some (linea, reader1) => linea :: leer_todas fuel' reader1
      end
  end.

Definition lineas_de (archivo : texto) : list texto :=
  leer_todas (S (length archivo)) (SerialReader.mk (Some archivo)).

(** Text without NUL, without a newline; the two characters that end a
    line. *)
Definition sin_NUL (s : texto) : Prop := Forall (fun ch => ch <> NUL) s.
Definition sin_LF (s : texto) : Prop := Forall (fun ch => ch <> char 10) s.
Definition fin_de_linea (ch : ascii) : Prop := ch = char 10 \/ ch = char 13.

(** A line that the reader gives back as it is: no NUL, no newline, no
    end-of-line character at its end, and short enough for the buffer of
    [main] together with its end of line. *)
Definition linea_limpia (l : texto) : Prop :=
  sin_NUL l /\ sin_LF l /\ ~ fin_de_linea (List.last l "x"%char) /\
  (length l <= 253)%nat.

(** The two ends of line: LF, and CR LF. *)
Definition terminador (t : texto) : Prop := t = [char 10] \/ t = [char 13; char 10].

(** The text the program writes after the loop, for the message [ds]. *)
Definition texto_final (ds : texto) : texto :=
  (char 10 :: T "---" ++ char 10 :: T "Flujo de datos terminado." ++ [char 10])
  ++ (T "MENSAJE OCULTO ENSAMBLADO:" ++ endl ++ ds ++ endl)
  ++ T "---" ++ char 10 :: T "Liberando memoria... Sistema apagado." ++ endl.

Definition estado_tras (ts : list Trama) : Estado :=
  match procesar_todas ts estado_inicial with
  | Some (st, _) => st
  | None => estado_inicial
  end.

(** ** The rotor *)

Lemma new_rotor_inicial : RotorDeMapeo.new = Some rotor_inicial.
Proof. vm_compute. reflexivity. Qed.

Lemma rotor_inicial_forma :
  rotor_inicial = RotorDeMapeo.mk anillo (Some 0%nat) 26.
Proof. vm_compute. reflexivity. Qed.

Lemma code_char z : 0 <= z < 256 -> code (char z) = z.
Proof.
  intros Hz. unfold code, char.
  rewrite Z.mod_small by lia.
  rewrite nat_ascii_embedding by lia. lia.
Qed.

Lemma char_code ch : char (code ch) = ch.
Proof.
  unfold code, char.
  pose proof (nat_ascii_bounded ch) as Hb.
  rewrite Z.mod_small by lia.
  rewrite Nat2Z.id. apply ascii_nat_embedding.
Qed.

Lemma code_rango ch : 0 <= code ch < 256.
Proof. unfold code. pose proof (nat_ascii_bounded ch). lia. Qed.

Lemma code_iny a b : code a = code b -> a = b.
Proof. intros H. rewrite <- (char_code a), <- (char_code b). now rewrite H. Qed.

Lemma anillo_nodo h :
  (h < 26)%nat ->
  anillo !! h = Some (NodoRotor.mk (char (65 + Z.of_nat h))
                        (Some ((h + 25) mod 26)%nat) (Some ((h + 1) mod 26)%nat)).
Proof.
  intros Hh.
  do 26 (destruct h as [|h]; [vm_compute; reflexivity|]).
  lia.
Qed.

Lemma avanzar_S mem k cur :
  RotorDeMapeo.avanzar mem (S k) cur =
  match leer mem cur with
  | None => None
  | Some n => RotorDeMapeo.avanzar mem k (NodoRotor.next n)
  end.
Proof. reflexivity. Qed.

(** Following [next] [k] times on the ring goes [k] letters forward,
    wrapping after ['Z']. *)
Lemma avanzar_anillo k : forall h,
  (h < 26)%nat ->
  RotorDeMapeo.avanzar anillo k (Some h) = Some (Some ((h + k) mod 26)%nat).
Proof.
  induction k as [|k IH]; intros h Hh.
  - cbn [RotorDeMapeo.avanzar]. rewrite Nat.add_0_r, Nat.mod_small by lia. reflexivity.
  - rewrite avanzar_S. cbn [leer]. rewrite anillo_nodo by lia.
    cbn [NodoRotor.next]. rewrite IH by (apply Nat.mod_upper_bound; lia).
    rewrite Nat.Div0.add_mod_idemp_l.
    do 3 f_equal. lia.
Qed.

Lemma efectivo_mod N : RotorDeMapeo.efectivo N 26 = N mod 26.
Proof.
  unfold RotorDeMapeo.efectivo.
  pose proof (Z.rem_bound_pos_pos) as _.
  destruct (Z.ltb_spec (Z.rem N 26) 0);
    Z.to_euclidean_division_equations; lia.
Qed.

(** Every reachable rotor is the constructed ring with [head] on one of
    its 26 nodes. *)
Lemma alcanzable_forma r :
  alcanzable r ->
  exists h, (h < 26)%nat /\ r = RotorDeMapeo.mk anillo (Some h) 26.
Proof.
  induction 1 as [r Hnew | r N r1 o _ IH Hrot].
  - exists 0%nat. split; [lia|].
    assert (r = rotor_inicial) as ->
      by (apply (inj Some); rewrite <- Hnew; apply new_rotor_inicial).
    apply rotor_inicial_forma.
  - destruct IH as (h & Hh & ->).
    unfold RotorDeMapeo.rotar in Hrot. cbn [RotorDeMapeo.head RotorDeMapeo.size RotorDeMapeo.mem] in Hrot.
    change (26 <=? 1) with false in Hrot. cbv iota in Hrot.
    rewrite avanzar_anillo in Hrot by lia.
    set (h1 := ((h + _) mod 26)%nat) in Hrot.
    assert (h1 < 26)%nat as Hh1 by (apply Nat.mod_upper_bound; lia).
    clearbody h1.
    cbn [deref bind ret cout] in Hrot.
    injection Hrot as <- _.
    exists h1. split; [assumption|reflexivity].
Qed.

Lemma offset_forma h :
  (h < 26)%nat ->
  offset (RotorDeMapeo.mk anillo (Some h) 26) = Some (Z.of_nat h).
Proof.
  intros Hh. unfold offset. cbn [RotorDeMapeo.mem RotorDeMapeo.head leer].
  rewrite anillo_nodo by lia. cbn [NodoRotor.c].
  rewrite code_char by lia. change (code "A") with 65. f_equal. lia.
Qed.

(** [rotar] on a reachable rotor: it returns, and moves [head] by the
    effective displacement. *)
Lemma rotar_forma N h :
  (h < 26)%nat ->
  exists o,
    RotorDeMapeo.rotar N (RotorDeMapeo.mk anillo (Some h) 26) =
    Some (RotorDeMapeo.mk anillo (Some ((h + Z.to_nat (N mod 26)) mod 26)%nat) 26, o).
Proof.
  intros Hh. unfold RotorDeMapeo.rotar.
  cbn [RotorDeMapeo.head RotorDeMapeo.size RotorDeMapeo.mem].
  change (26 <=? 1) with false. cbv iota.
  rewrite avanzar_anillo by lia. rewrite efectivo_mod.
  cbn [deref bind ret cout]. eexists. reflexivity.
Qed.

(** [getMapeo] on a reachable rotor, for an upper-case letter: the letter
    [offset] places further, wrapping after ['Z']. *)
Lemma getMapeo_mayuscula x h :
  (h < 26)%nat -> mayuscula x ->
  RotorDeMapeo.getMapeo x (RotorDeMapeo.mk anillo (Some h) 26) =
  Some (char (65 + (Z.of_nat h + (code x - 65)) mod 26)).
Proof.
  unfold mayuscula. change (code "A") with 65. change (code "Z") with 90.
  intros Hh Hx. unfold RotorDeMapeo.getMapeo.
  change (code "A") with 65. change (code "Z") with 90.
  change (code "a") with 97. change (code "z") with 122.
  destruct (Ascii.eqb_spec x " ") as [->|_].
  { vm_compute in Hx. destruct Hx as [Hx _]. exfalso. apply Hx. reflexivity. }
  replace ((97 <=? code x) && (code x <=? 122)) with false
    by (symmetry; apply andb_false_iff; left; apply Z.leb_gt; lia).
  replace ((code x <? 65) || (90 <? code x)) with false
    by (symmetry; apply orb_false_iff; split; apply Z.ltb_ge; lia).
  cbn [RotorDeMapeo.mem RotorDeMapeo.head].
  rewrite avanzar_anillo by lia.
  cbn [leer]. rewrite anillo_nodo by (apply Nat.mod_upper_bound; lia).
  cbn [NodoRotor.c]. do 3 f_equal.
  rewrite Nat2Z.inj_mod, Nat2Z.inj_add, Z2Nat.id by lia. reflexivity.
Qed.

Lemma getMapeo_espacio r : RotorDeMapeo.getMapeo " " r = Some " "%char.
Proof. reflexivity. Qed.

(** A character that is neither a space, nor a lower-case nor an
    upper-case letter is returned as it is, whatever the rotor. *)
Lemma getMapeo_otro x r :
  x <> " "%char -> ~ mayuscula x -> ~ minuscula x ->
  RotorDeMapeo.getMapeo x r = Some x.
Proof.
  unfold mayuscula, minuscula. intros Hsp Hma Hmi. unfold RotorDeMapeo.getMapeo.
  destruct (Ascii.eqb_spec x " ") as [->|_]; [contradiction|].
  replace ((code "a" <=? code x) && (code x <=? code "z")) with false.
  2:{ symmetry. apply andb_false_iff.
      destruct (Z.leb_spec (code "a") (code x)); [right|left; reflexivity].
      apply Z.leb_gt. lia. }
  replace ((code x <? code "A") || (code "Z" <? code x)) with true; [reflexivity|].
  symmetry. apply orb_true_iff.
  destruct (Z.ltb_spec (code x) (code "A")); [left; reflexivity|right].
  apply Z.ltb_lt. lia.
Qed.

(** A lower-case letter is mapped as its upper-case form. *)
Lemma getMapeo_minuscula x r :
  minuscula x ->
  RotorDeMapeo.getMapeo x r = RotorDeMapeo.getMapeo (char (code x - 32)) r.
Proof.
  unfold minuscula. change (code "a") with 97. change (code "z") with 122.
  intros Hx. unfold RotorDeMapeo.getMapeo.
  change (code "A") with 65. change (code "Z") with 90.
  change (code "a") with 97. change (code "z") with 122.
  destruct (Ascii.eqb_spec x " ") as [->|_].
  { vm_compute in Hx. destruct Hx as [Hx _]. exfalso. apply Hx. reflexivity. }
  destruct (Ascii.eqb_spec (char (code x - 32)) " ") as [E|_].
  { apply (f_equal code) in E. rewrite code_char in E by lia.
    change (code " ") with 32 in E. lia. }
  replace ((97 <=? code x) && (code x <=? 122)) with true
    by (symmetry; apply andb_true_iff; split; apply Z.leb_le; lia).
  rewrite (code_char (code x - 32)) by lia.
  replace ((97 <=? code x - 32) && (code x - 32 <=? 122)) with false
    by (symmetry; apply andb_false_iff; left; apply Z.leb_gt; lia).
  replace (code x - 97 + 65) with (code x - 32) by lia.
  reflexivity.
Qed.

(** ** The list of decoded characters *)

Lemma nodos_lookup cs i : nodos cs !! i = nodo (length cs) i <$> cs !! i.
Proof. unfold nodos. apply list_lookup_imap. Qed.

Lemma length_nodos cs : length (nodos cs) = length cs.
Proof. unfold nodos. apply length_imap. Qed.

(** [insertarAlFinal] on the list holding [cs] returns, writes nothing, and
    gives the list holding [cs ++ [d]]. *)
Lemma insertarAlFinal_lista_de cs d :
  ListaDeCarga.insertarAlFinal d (lista_de cs) = Some (lista_de (cs ++ [d]), []).
Proof.
  destruct cs as [|c0 cs0] eqn:Ecs; [reflexivity|].
  rewrite <- Ecs.
  assert (exists m, length cs = S m) as [m Hm] by (subst cs; cbn; eauto).
  assert (lista_de cs = ListaDeCarga.mk (nodos cs) (Some 0%nat) (Some m)) as ->.
  { unfold lista_de. rewrite Hm. subst cs. reflexivity. }
  assert (lista_de (cs ++ [d])
          = ListaDeCarga.mk (nodos (cs ++ [d])) (Some 0%nat) (Some (S m))) as ->.
  { unfold lista_de. rewrite length_app, Hm. cbn [length].
    replace (S m + 1)%nat with (S (S m)) by lia.
    subst cs. reflexivity. }
  clear Ecs c0 cs0.
  destruct (lookup_lt_is_Some_2 cs m ltac:(lia)) as [cl Hcl].
  unfold ListaDeCarga.insertarAlFinal.
  cbn [ListaDeCarga.tail ListaDeCarga.mem ListaDeCarga.head].
  rewrite length_nodos, Hm.
  unfold escribir at 1.
  rewrite lookup_app_l by (rewrite length_nodos; lia).
  rewrite nodos_lookup, Hcl. cbn [fmap option_fmap option_map deref ret bind].
  unfold escribir.
  rewrite list_lookup_insert_ne by lia.
  rewrite lookup_app_r by (rewrite length_nodos; lia).
  rewrite length_nodos, Hm, Nat.sub_diag.
  cbn [lookup list_lookup deref ret bind app].
  do 2 f_equal. f_equal.
  apply list_eq. intros i.
  rewrite nodos_lookup, length_app, Hm. cbn [length].
  replace (S m + 1)%nat with (S (S m)) by lia.
  destruct (Nat.lt_total i (S m)) as [Hlt|[->|Hgt]].
  - rewrite list_lookup_insert_ne by lia.
    rewrite (lookup_app_l cs) by lia.
    destruct (Nat.eq_dec i m) as [->|Hne].
    + rewrite list_lookup_insert_eq by (rewrite length_app, length_nodos; cbn; lia).
      rewrite Hcl. cbn [fmap option_fmap option_map].
      unfold nodo, NodoCarga.set_next. cbn [NodoCarga.dato NodoCarga.prev].
      replace (S m =? S (S m))%nat with false by (symmetry; apply Nat.eqb_neq; lia).
      reflexivity.
    + rewrite list_lookup_insert_ne by lia.
      rewrite lookup_app_l by (rewrite length_nodos; lia).
      rewrite nodos_lookup, Hm.
      destruct (cs !! i) as [ci|]; [|reflexivity].
      cbn [fmap option_fmap option_map]. unfold nodo.
      replace (S i =? S m)%nat with false by (symmetry; apply Nat.eqb_neq; lia).
      replace (S i =? S (S m))%nat with false by (symmetry; apply Nat.eqb_neq; lia).
      reflexivity.
  - rewrite list_lookup_insert_eq
      by (rewrite length_insert, length_app, length_nodos; cbn; lia).
    rewrite lookup_app_r by lia. rewrite Hm, Nat.sub_diag.
    cbn [lookup list_lookup fmap option_fmap option_map].
    unfold nodo, NodoCarga.set_prev, NodoCarga.new.
    cbn [NodoCarga.dato NodoCarga.next]. rewrite Nat.eqb_refl. reflexivity.
  - rewrite list_lookup_insert_ne by lia.
    rewrite list_lookup_insert_ne by lia.
    rewrite !lookup_ge_None_2; [reflexivity| |].
    + rewrite length_app. cbn. lia.
    + rewrite length_app, length_nodos. cbn. lia.
Qed.

(** The walk from node [i] of the list holding [cs] meets the characters
    from position [i] on, whenever the fuel covers the nodes left. *)
Lemma recorrer_nodos cs fuel : forall i,
  (i < length cs)%nat -> (length cs - i <= fuel)%nat ->
  ListaDeCarga.recorrer fuel (nodos cs) (Some i) = Some (drop i cs).
Proof.
  induction fuel as [|fuel IH]; intros i Hi Hf; [lia|].
  destruct (lookup_lt_is_Some_2 cs i Hi) as [ci Hci].
  cbn [ListaDeCarga.recorrer].
  rewrite nodos_lookup, Hci. cbn [fmap option_fmap option_map].
  unfold nodo at 1. cbn [NodoCarga.next NodoCarga.dato].
  rewrite (drop_S _ _ _ Hci).
  destruct (Nat.eqb_spec (S i) (length cs)) as [E|E].
  - destruct fuel; cbn [ListaDeCarga.recorrer];
      rewrite drop_ge by lia; reflexivity.
  - rewrite IH by lia. reflexivity.
Qed.

Lemma contenido_lista_de cs : ListaDeCarga.contenido (lista_de cs) = Some cs.
Proof.
  unfold ListaDeCarga.contenido.
  destruct cs as [|c0 cs0] eqn:E; [reflexivity|]. rewrite <- E.
  assert (0 < length cs)%nat by (subst cs; cbn; lia).
  replace (ListaDeCarga.head (lista_de cs)) with (Some 0%nat) by (subst cs; reflexivity).
  replace (ListaDeCarga.mem (lista_de cs)) with (nodos cs) by reflexivity.
  rewrite length_nodos. rewrite recorrer_nodos by lia. reflexivity.
Qed.

(** ** Frames applied to reachable states *)

Lemma mayuscula_dec x : {mayuscula x} + {~ mayuscula x}.
Proof.
  unfold mayuscula.
  destruct (Z_le_dec (code "A") (code x)); [|right; lia].
  destruct (Z_le_dec (code x) (code "Z")); [left; lia|right; lia].
Qed.

Lemma minuscula_dec x : {minuscula x} + {~ minuscula x}.
Proof.
  unfold minuscula.
  destruct (Z_le_dec (code "a") (code x)); [|right; lia].
  destruct (Z_le_dec (code x) (code "z")); [left; lia|right; lia].
Qed.

(** [getMapeo] returns on every reachable rotor, for every character. *)
Lemma getMapeo_total h x :
  (h < 26)%nat ->
  exists y, RotorDeMapeo.getMapeo x (RotorDeMapeo.mk anillo (Some h) 26) = Some y.
Proof.
  intros Hh.
  destruct (mayuscula_dec x) as [Hma|Hma].
  { rewrite getMapeo_mayuscula by assumption. eauto. }
  destruct (minuscula_dec x) as [Hmi|Hmi].
  { rewrite getMapeo_minuscula by assumption.
    rewrite getMapeo_mayuscula; [eauto|assumption|].
    unfold mayuscula, minuscula in *.
    change (code "A") with 65. change (code "Z") with 90.
    change (code "a") with 97 in Hmi. change (code "z") with 122 in Hmi.
    rewrite code_char; lia. }
  destruct (Ascii.eqb_spec x " ") as [->|Hsp].
  { rewrite getMapeo_espacio. eauto. }
  rewrite getMapeo_otro by assumption. eauto.
Qed.

Lemma leer_desde_anillo k : forall h,
  (h < 26)%nat -> exists cs, RotorDeMapeo.leer_desde anillo k (Some h) = Some cs.
Proof.
  induction k as [|k IH]; intros h Hh.
  - exists []. reflexivity.
  - cbn [RotorDeMapeo.leer_desde leer]. rewrite anillo_nodo by assumption.
    cbn [NodoRotor.next NodoRotor.c].
    destruct (IH ((h + 1) mod 26)%nat) as [cs ->];
      [apply Nat.mod_upper_bound; lia|].
    eauto.
Qed.

Lemma imprimirEstado_forma h :
  (h < 26)%nat ->
  exists o, RotorDeMapeo.imprimirEstado (RotorDeMapeo.mk anillo (Some h) 26) = Some (tt, o).
Proof.
  intros Hh. unfold RotorDeMapeo.imprimirEstado.
  cbn [RotorDeMapeo.head RotorDeMapeo.mem RotorDeMapeo.size].
  destruct (leer_desde_anillo (Z.to_nat 26) h Hh) as [cs ->].
  cbn [deref bind ret cout]. eauto.
Qed.

Lemma imprimirMensaje_lista_de cs :
  exists o, ListaDeCarga.imprimirMensaje (lista_de cs) = Some (tt, o).
Proof.
  unfold ListaDeCarga.imprimirMensaje. rewrite contenido_lista_de.
  cbn [deref bind ret cout]. eauto.
Qed.

(** A LOAD frame appends the output of [getMapeo] and leaves the rotor. *)
Lemma procesar_load f cs h dec :
  (h < 26)%nat ->
  RotorDeMapeo.getMapeo f (RotorDeMapeo.mk anillo (Some h) 26) = Some dec ->
  exists o,
    procesar (TramaLoad f)
      {| carga := lista_de cs; rotor := RotorDeMapeo.mk anillo (Some h) 26 |}
    = Some ({| carga := lista_de (cs ++ [dec]);
               rotor := RotorDeMapeo.mk anillo (Some h) 26 |}, o).
Proof.
  intros Hh Hdec. unfold procesar. cbn [carga rotor].
  destruct (imprimirMensaje_lista_de (cs ++ [dec])) as [o1 Ho1].
  rewrite Hdec. cbn [deref bind ret cout].
  rewrite insertarAlFinal_lista_de. cbn [deref bind ret cout].
  rewrite Ho1. eauto.
Qed.

(** A MAP frame rotates the rotor and leaves the list. *)
Lemma procesar_map n l h :
  (h < 26)%nat ->
  exists o,
    procesar (TramaMap n)
      {| carga := l; rotor := RotorDeMapeo.mk anillo (Some h) 26 |}
    = Some ({| carga := l;
               rotor := RotorDeMapeo.mk anillo
                          (Some ((h + Z.to_nat (n mod 26)) mod 26)%nat) 26 |}, o).
Proof.
  intros Hh. unfold procesar. cbn [carga rotor].
  destruct (rotar_forma n h Hh) as [o1 ->].
  destruct (imprimirEstado_forma ((h + Z.to_nat (n mod 26)) mod 26)%nat) as [o2 Ho2];
    [apply Nat.mod_upper_bound; lia|].
  cbn [deref bind ret cout]. rewrite Ho2. eauto.
Qed.

(** Every state of the loop holds a reachable rotor and a well-linked
    list. *)
Lemma estado_alcanzable_forma st :
  estado_alcanzable st ->
  exists h cs, (h < 26)%nat /\
    st = {| carga := lista_de cs; rotor := RotorDeMapeo.mk anillo (Some h) 26 |}.
Proof.
  induction 1 as [r Hnew | st trama st1 o _ IH Hp].
  - exists 0%nat, []. split; [lia|].
    assert (r = rotor_inicial) as ->
      by (apply (inj Some); rewrite <- Hnew; apply new_rotor_inicial).
    rewrite rotor_inicial_forma. reflexivity.
  - destruct IH as (h & cs & Hh & ->).
    destruct trama as [f|n].
    + destruct (getMapeo_total h f Hh) as [dec Hdec].
      destruct (procesar_load f cs h dec Hh Hdec) as [o1 Ho1].
      rewrite Ho1 in Hp.
      assert (st1 = {| carga := lista_de (cs ++ [dec]);
                       rotor := RotorDeMapeo.mk anillo (Some h) 26 |}) as ->
        by congruence.
      eauto.
    + destruct (procesar_map n (lista_de cs) h Hh) as [o1 Ho1].
      rewrite Ho1 in Hp.
      match type of Ho1 with _ = Some (?s, _) => assert (st1 = s) as -> by congruence end.
      eexists _, cs. split; [|reflexivity].
      apply Nat.mod_upper_bound. lia.
Qed.

(** Frames applied to a reachable state: the run returns, and the list
    grows by the expected characters. *)
Lemma procesar_todas_forma ts : forall h cs,
  (h < 26)%nat ->
  exists ds h1 o,
    (h1 < 26)%nat /\
    decodificados (RotorDeMapeo.mk anillo (Some h) 26) ts = Some ds /\
    procesar_todas ts
      {| carga := lista_de cs; rotor := RotorDeMapeo.mk anillo (Some h) 26 |}
    = Some ({| carga := lista_de (cs ++ ds);
               rotor := RotorDeMapeo.mk anillo (Some h1) 26 |}, o).
Proof.
  induction ts as [|t ts IH]; intros h cs Hh.
  - exists [], h, []. rewrite app_nil_r. repeat split; assumption.
  - destruct t as [f|n]; cbn [procesar_todas decodificados].
    + destruct (getMapeo_total h f Hh) as [dec Hdec].
      destruct (procesar_load f cs h dec Hh Hdec) as [o1 Ho1].
      destruct (IH h (cs ++ [dec]) Hh) as (ds & h1 & o2 & Hh1 & Hds & Hrun).
      rewrite Hdec, Hds, Ho1. cbn [bind]. rewrite Hrun.
      rewrite <- app_assoc. cbn [app]. eauto 10.
    + destruct (rotar_forma n h Hh) as [o0 Ho0].
      destruct (procesar_map n (lista_de cs) h Hh) as [o1 Ho1].
      destruct (IH ((h + Z.to_nat (n mod 26)) mod 26)%nat cs) as (ds & h1 & o2 & Hh1 & Hds & Hrun);
        [apply Nat.mod_upper_bound; lia|].
      rewrite Ho0, Hds, Ho1. cbn [bind]. rewrite Hrun. eauto 10.
Qed.

(** ** Claims about the rotor *)

(** C2: on every rotor state reachable through [rotar], [getMapeo] sends the
    letters A-Z to letters A-Z, injectively and onto; the space is mapped
    to itself; a character that is neither a letter nor the space is
    returned unchanged. *)
Theorem C2_getMapeo_biyeccion :
  forall r, alcanzable r ->
    (forall x, mayuscula x ->
       exists y, RotorDeMapeo.getMapeo x r = Some y /\ mayuscula y) /\
    (forall x1 x2 y, mayuscula x1 -> mayuscula x2 ->
       RotorDeMapeo.getMapeo x1 r = Some y ->
       RotorDeMapeo.getMapeo x2 r = Some y -> x1 = x2) /\
    (forall y, mayuscula y ->
       exists x, mayuscula x /\ RotorDeMapeo.getMapeo x r = Some y) /\
    RotorDeMapeo.getMapeo " " r = Some " "%char /\
    (forall x, x <> " "%char -> ~ mayuscula x -> ~ minuscula x ->
       RotorDeMapeo.getMapeo x r = Some x).
Proof.
  intros r Hr. destruct (alcanzable_forma r Hr) as (h & Hh & ->).
  repeat split.
  - intros x Hx. rewrite getMapeo_mayuscula by assumption.
    eexists. split; [reflexivity|].
    unfold mayuscula in *. change (code "A") with 65 in *. change (code "Z") with 90 in *.
    pose proof (Z.mod_pos_bound (Z.of_nat h + (code x - 65)) 26 ltac:(lia)).
    rewrite code_char; lia.
  - intros x1 x2 y H1 H2. rewrite !getMapeo_mayuscula by assumption.
    intros E1 E2. rewrite <- E2 in E1. injection E1 as E.
    unfold mayuscula in *. change (code "A") with 65 in *. change (code "Z") with 90 in *.
    apply (f_equal code) in E.
    pose proof (Z.mod_pos_bound (Z.of_nat h + (code x1 - 65)) 26 ltac:(lia)).
    pose proof (Z.mod_pos_bound (Z.of_nat h + (code x2 - 65)) 26 ltac:(lia)).
    rewrite !code_char in E by lia.
    apply code_iny.
    Z.to_euclidean_division_equations. lia.
  - intros y Hy.
    unfold mayuscula in *. change (code "A") with 65 in *. change (code "Z") with 90 in *.
    pose proof (Z.mod_pos_bound (code y - 65 - Z.of_nat h) 26 ltac:(lia)) as Hb.
    assert (code (char (65 + (code y - 65 - Z.of_nat h) mod 26))
            = 65 + (code y - 65 - Z.of_nat h) mod 26) as Hc
      by (rewrite code_char; lia).
    exists (char (65 + (code y - 65 - Z.of_nat h) mod 26)).
    split; [rewrite Hc; lia|].
    rewrite getMapeo_mayuscula; [|assumption|].
    2:{ unfold mayuscula. change (code "A") with 65. change (code "Z") with 90.
        rewrite Hc. lia. }
    rewrite Hc. f_equal. apply code_iny. rewrite code_char.
    + Z.to_euclidean_division_equations. lia.
    + pose proof (Z.mod_pos_bound
                    (Z.of_nat h + (65 + (code y - 65 - Z.of_nat h) mod 26 - 65)) 26
                    ltac:(lia)). lia.
  - intros x H1 H2 H3. apply getMapeo_otro; assumption.
Qed.

Lemma C2_getMapeo_biyeccion_witness :
  (exists y, RotorDeMapeo.getMapeo "A" rotor_inicial = Some y /\ mayuscula y)
  /\ RotorDeMapeo.getMapeo " " rotor_inicial = Some " "%char.
Proof.
  pose proof (C2_getMapeo_biyeccion rotor_inicial (alc_new _ new_rotor_inicial))
    as (H1 & _ & _ & H4 & _).
  split; [|exact H4].
  apply H1. unfold mayuscula. vm_compute. split; discriminate.
Defined.

(** C3: [rotar N] moves a reachable rotor forward by
    [((N rem 26) + 26) mod 26] places, a number in [0,26), for every
    integer [N]; [rotar (-2)] on the fresh rotor leaves the offset 24. *)
Theorem C3_rotar_efectivo :
  (forall r N, alcanzable r ->
     exists k r1 o,
       offset r = Some k /\ 0 <= k < 26 /\
       RotorDeMapeo.rotar N r = Some (r1, o) /\
       RotorDeMapeo.efectivo N (RotorDeMapeo.size r) = (Z.rem N 26 + 26) mod 26 /\
       0 <= (Z.rem N 26 + 26) mod 26 < 26 /\
       offset r1 = Some ((k + (Z.rem N 26 + 26) mod 26) mod 26)) /\
  offset rotor_inicial = Some 0 /\
  offset_tras (RotorDeMapeo.rotar (-2) rotor_inicial) = Some 24.
Proof.
  split; [|split; vm_compute; reflexivity].
  intros r N Hr. destruct (alcanzable_forma r Hr) as (h & Hh & ->).
  destruct (rotar_forma N h Hh) as (o & Ho).
  assert ((Z.rem N 26 + 26) mod 26 = N mod 26) as He
    by (Z.to_euclidean_division_equations; lia).
  pose proof (Z.mod_pos_bound N 26 ltac:(lia)) as Hb.
  eexists (Z.of_nat h), _, o. rewrite He.
  split; [apply offset_forma; assumption|].
  split; [lia|]. split; [exact Ho|].
  split; [apply efectivo_mod|]. split; [lia|].
  rewrite offset_forma by (apply Nat.mod_upper_bound; lia).
  f_equal. rewrite Nat2Z.inj_mod, Nat2Z.inj_add, Z2Nat.id by lia. reflexivity.
Qed.

Lemma C3_rotar_efectivo_witness :
  exists k r1 o,
    offset rotor_inicial = Some k /\ 0 <= k < 26 /\
    RotorDeMapeo.rotar (-2) rotor_inicial = Some (r1, o) /\
    RotorDeMapeo.efectivo (-2) (RotorDeMapeo.size rotor_inicial) = 24 /\
    0 <= 24 < 26 /\
    offset r1 = Some ((k + 24) mod 26).
Proof.
  exact (proj1 C3_rotar_efectivo rotor_inicial (-2) (alc_new _ new_rotor_inicial)).
Defined.

(** C4: on a reachable rotor, [rotar N] followed by [rotar (-N)] gives back
    a rotor that maps every character as the original did. *)
Theorem C4_rotar_inverso :
  forall r N, alcanzable r ->
    exists r1 o1 r2 o2,
      RotorDeMapeo.rotar N r = Some (r1, o1) /\
      RotorDeMapeo.rotar (- N) r1 = Some (r2, o2) /\
      forall x, RotorDeMapeo.getMapeo x r2 = RotorDeMapeo.getMapeo x r.
Proof.
  intros r N Hr. destruct (alcanzable_forma r Hr) as (h & Hh & ->).
  destruct (rotar_forma N h Hh) as (o1 & Ho1).
  set (h1 := ((h + Z.to_nat (N mod 26)) mod 26)%nat) in *.
  assert (h1 < 26)%nat as Hh1 by (apply Nat.mod_upper_bound; lia).
  destruct (rotar_forma (- N) h1 Hh1) as (o2 & Ho2).
  assert (((h1 + Z.to_nat (- N mod 26)) mod 26)%nat = h) as Hback.
  { subst h1.
    pose proof (Z.mod_pos_bound N 26 ltac:(lia)).
    pose proof (Z.mod_pos_bound (- N) 26 ltac:(lia)).
    apply Nat2Z.inj.
    rewrite !Nat2Z.inj_mod, !Nat2Z.inj_add, !Nat2Z.inj_mod, !Nat2Z.inj_add, !Z2Nat.id by lia.
    Z.to_euclidean_division_equations. lia. }
  rewrite Hback in Ho2.
  eexists _, o1, _, o2. split; [exact Ho1|]. split; [exact Ho2|].
  reflexivity.
Qed.

Lemma C4_rotar_inverso_witness :
  exists r1 o1 r2 o2,
    RotorDeMapeo.rotar 30 rotor_inicial = Some (r1, o1) /\
    RotorDeMapeo.rotar (- 30) r1 = Some (r2, o2) /\
    forall x, RotorDeMapeo.getMapeo x r2 = RotorDeMapeo.getMapeo x rotor_inicial.
Proof.
  exact (C4_rotar_inverso rotor_inicial 30 (alc_new _ new_rotor_inicial)).
Defined.

(** C1: scenario A.  From the fresh rotor and the empty list, the lines
    L,H L,O L,L M,2 L,A L,Space L,W leave the message H O L C space Y; the
    first three are decoded at offset 0, the rotation by 2 acts on the
    lines after it only. *)
Theorem C1_escenario_A :
  mensaje_final (sesion (map T ["L,H"; "L,O"; "L,L"; "M,2"; "L,A"; "L,Space"; "L,W"]%string))
  = Some (T "HOLC Y")
  /\ mensaje_final (sesion (map T ["L,H"; "L,O"; "L,L"]%string)) = Some (T "HOL")
  /\ offset_final (sesion (map T ["L,H"; "L,O"; "L,L"]%string)) = Some 0
  /\ mensaje_final (sesion (map T ["L,H"; "L,O"; "L,L"; "M,2"]%string)) = Some (T "HOL")
  /\ offset_final (sesion (map T ["L,H"; "L,O"; "L,L"; "M,2"]%string)) = Some 2
  /\ mensaje_final (bucle (map T ["L,A"; "L,Space"; "L,W"]%string) estado_inicial)
     = Some (T "A W").
Proof. vm_compute. repeat split. Qed.

(** ** C strings *)

Lemma coma_no_espacio : isspace "," = false.
Proof. reflexivity. Qed.

Lemma espacios_sin_coma e : espacios e -> sin_coma e.
Proof.
  unfold espacios, sin_coma. intros He.
  eapply Forall_impl; [exact He|].
  intros ch Hs ->. rewrite coma_no_espacio in Hs. discriminate.
Qed.

Lemma comas_rev cs : comas cs -> comas (rev cs).
Proof. apply Forall_rev. Qed.

Lemma espacios_rev e : espacios e -> espacios (rev e).
Proof. apply Forall_rev. Qed.

Lemma saltar_espacios_app e s :
  espacios e -> saltar_espacios (e ++ s) = saltar_espacios s.
Proof.
  induction 1 as [|ch e Hch _ IH]; [reflexivity|].
  cbn [app saltar_espacios]. rewrite Hch. exact IH.
Qed.

Lemma saltar_espacios_todos e : espacios e -> saltar_espacios e = [].
Proof.
  intros He. rewrite <- (app_nil_r e), saltar_espacios_app by assumption. reflexivity.
Qed.

Lemma saltar_espacios_cons ch s :
  isspace ch = false -> saltar_espacios (ch :: s) = ch :: s.
Proof. intros H. cbn [saltar_espacios]. rewrite H. reflexivity. Qed.

Lemma saltar_espacios_medio a ch b :
  isspace ch = false ->
  saltar_espacios (a ++ ch :: b) = saltar_espacios a ++ ch :: b.
Proof.
  intros Hch. induction a as [|x a IH].
  - cbn [app]. rewrite saltar_espacios_cons by assumption. reflexivity.
  - cbn [app saltar_espacios]. destruct (isspace x); [exact IH|reflexivity].
Qed.

Lemma cortar_final_medio s ch t :
  isspace ch = false ->
  cortar_final (s ++ ch :: t) = s ++ ch :: cortar_final t.
Proof.
  intros Hch. unfold cortar_final.
  rewrite rev_app_distr. cbn [rev]. rewrite <- app_assoc. cbn [app].
  rewrite saltar_espacios_medio by assumption.
  rewrite rev_app_distr. cbn [rev]. rewrite rev_involutive, <- app_assoc.
  reflexivity.
Qed.

Lemma cortar_final_espacios e : espacios e -> cortar_final e = [].
Proof.
  intros He. unfold cortar_final.
  rewrite saltar_espacios_todos by (apply espacios_rev; assumption). reflexivity.
Qed.

Lemma cortar_final_app_espacios s e :
  espacios e -> cortar_final (s ++ e) = cortar_final s.
Proof.
  intros He. unfold cortar_final.
  rewrite rev_app_distr, saltar_espacios_app by (apply espacios_rev; assumption).
  reflexivity.
Qed.

Lemma cortar_final_ultimo s ch :
  isspace ch = false -> cortar_final (s ++ [ch]) = s ++ [ch].
Proof.
  intros Hch. rewrite cortar_final_medio by assumption. reflexivity.
Qed.


Lemma trim_espacios e : espacios e -> trim e = [].
Proof.
  intros He. unfold trim. rewrite saltar_espacios_todos by assumption. reflexivity.
Qed.

(** [trim] leaves what lies between the first and the last character that
    is not whitespace. *)
Lemma trim_nucleo e1 a e2 :
  espacios e1 -> espacios e2 ->
  isspace (hd " "%char a) = false -> isspace (List.last a " "%char) = false ->
  trim (e1 ++ a ++ e2) = a.
Proof.
  intros He1 He2 Hhd Hlast. unfold trim.
  rewrite saltar_espacios_app by assumption.
  destruct a as [|x a]; [discriminate Hhd|]. cbn [hd] in Hhd.
  cbn [app]. rewrite saltar_espacios_cons by assumption.
  change (x :: a ++ e2) with ((x :: a) ++ e2).
  rewrite cortar_final_app_espacios by assumption.
  destruct (x :: a) as [|y b] using rev_ind; [reflexivity|].
  rewrite last_last in Hlast.
  apply cortar_final_ultimo. assumption.
Qed.

Lemma trim_uno e1 ch e2 :
  espacios e1 -> espacios e2 -> isspace ch = false ->
  trim (e1 ++ ch :: e2) = [ch].
Proof.
  intros He1 He2 Hch.
  apply (trim_nucleo e1 [ch] e2); assumption.
Qed.

(** A text is whitespace only, or has a last character that is not. *)
Lemma ultimo_no_espacio s :
  espacios s \/
  exists a ch e, s = a ++ ch :: e /\ isspace ch = false /\ espacios e.
Proof.
  induction s as [|x s IH]; [left; constructor|].
  destruct IH as [He|(a & ch & e & -> & Hch & He)].
  - destruct (isspace x) eqn:Hx.
    + left. constructor; assumption.
    + right. exists [], x, s. repeat split; assumption.
  - right. exists (x :: a), ch, e. repeat split; assumption.
Qed.

(** The first character [trim] leaves is not whitespace and comes from the
    text. *)
Lemma saltar_espacios_primero s ch t :
  saltar_espacios s = ch :: t -> isspace ch = false /\ exists e, s = e ++ ch :: t.
Proof.
  induction s as [|x s IH]; [discriminate|].
  cbn [saltar_espacios]. destruct (isspace x) eqn:Hx.
  - intros H. destruct (IH H) as [Hch [e ->]]. split; [assumption|].
    exists (x :: e). reflexivity.
  - intros [= -> ->]. split; [assumption|]. exists []. reflexivity.
Qed.

Lemma trim_primero s ch t :
  trim s = ch :: t -> isspace ch = false /\ In ch s.
Proof.
  unfold trim. intros H.
  destruct (saltar_espacios s) as [|x r] eqn:E; [discriminate H|].
  destruct (saltar_espacios_primero _ _ _ E) as [Hx [e ->]].
  change (x :: r) with ([] ++ x :: r) in H.
  rewrite cortar_final_medio in H by assumption.
  cbn [app] in H. injection H as -> _.
  split; [assumption|]. apply in_or_app. right. left. reflexivity.
Qed.

(** *** [strtok] *)

Lemma saltar_comas_app cs s : comas cs -> saltar_comas (cs ++ s) = saltar_comas s.
Proof.
  induction 1 as [|ch cs -> _ IH]; [reflexivity|].
  cbn [app saltar_comas]. exact IH.
Qed.

Lemma saltar_comas_cons ch s : ch <> ","%char -> saltar_comas (ch :: s) = ch :: s.
Proof.
  intros H. cbn [saltar_comas].
  destruct (Ascii.eqb_spec ch ","); [contradiction|reflexivity].
Qed.

Lemma hasta_coma_app tok resto :
  sin_coma tok -> hasta_coma (tok ++ ","%char :: resto) = (tok, resto).
Proof.
  induction 1 as [|ch tok Hch _ IH]; [reflexivity|].
  cbn [app hasta_coma].
  destruct (Ascii.eqb_spec ch ","); [contradiction|]. rewrite IH. reflexivity.
Qed.

Lemma hasta_coma_fin tok : sin_coma tok -> hasta_coma tok = (tok, []).
Proof.
  induction 1 as [|ch tok Hch _ IH]; [reflexivity|].
  cbn [hasta_coma].
  destruct (Ascii.eqb_spec ch ","); [contradiction|]. rewrite IH. reflexivity.
Qed.


Lemma strtok_token cs tok resto :
  comas cs -> tok <> [] -> sin_coma tok ->
  strtok (cs ++ tok ++ ","%char :: resto) = (Some tok, resto).
Proof.
  intros Hcs Hne Htok. unfold strtok. rewrite saltar_comas_app by assumption.
  destruct tok as [|x tok]; [contradiction|].
  pose proof (Forall_inv Htok) as Hx. cbn beta in Hx.
  cbn [app]. rewrite saltar_comas_cons by assumption.
  change (x :: tok ++ ","%char :: resto) with ((x :: tok) ++ ","%char :: resto).
  rewrite hasta_coma_app by assumption. reflexivity.
Qed.

Lemma strtok_token_fin cs tok :
  comas cs -> tok <> [] -> sin_coma tok ->
  strtok (cs ++ tok) = (Some tok, []).
Proof.
  intros Hcs Hne Htok. unfold strtok. rewrite saltar_comas_app by assumption.
  destruct tok as [|x tok]; [contradiction|].
  pose proof (Forall_inv Htok) as Hx. cbn beta in Hx.
  rewrite saltar_comas_cons by assumption.
  rewrite hasta_coma_fin by assumption. reflexivity.
Qed.

(** ** The parser and the loop *)

(** The parser returns for every line. *)
Lemma trama_load_total resto : exists t o, trama_load resto = Some (t, o).
Proof.
  unfold trama_load. destruct (fst (strtok resto)) as [arg|]; [|cbn; eauto].
  cbv zeta.
  destruct (_ && _); [cbn; eauto|].
  destruct (_ =? _)%nat; [cbn; eauto|].
  destruct (_ <? _)%nat; cbn; eauto.
Qed.

Lemma trama_map_total resto : exists t o, trama_map resto = Some (t, o).
Proof.
  unfold trama_map. destruct (fst (strtok resto)) as [arg|]; cbn; eauto.
Qed.

Lemma parseLinea_total linea : exists t o, parseLinea linea = Some (t, o).
Proof.
  unfold parseLinea. cbv zeta.
  destruct (_ =? _)%nat; [cbn; eauto|].
  destruct (strtok _) as [[token|] resto]; [|cbn; eauto].
  destruct (_ =? _)%nat; [cbn; eauto|].
  unfold por_tipo.
  destruct (es_tipo _ "L" "l"); [apply trama_load_total|].
  destruct (es_tipo _ "M" "m"); [apply trama_map_total|].
  cbn. eauto.
Qed.


Lemma bind_ext {A B} (m : M A) (f g : A -> M B) :
  (forall a, f a = g a) -> bind m f = bind m g.
Proof.
  intros H. destruct m as [[a o]|]; [|reflexivity]. cbn [bind]. rewrite H. reflexivity.
Qed.


(** A line the parser gives no frame for: the loop leaves the state and
    writes the echo, the parser's text and its own remark. *)
Lemma paso_rechazada linea d st :
  parseLinea linea = Some (None, d) ->
  paso linea st = Some (st, eco linea ++ d ++ aviso_invalida).
Proof.
  intros H. unfold paso. rewrite H. cbn [bind cout ret].
  unfold eco, aviso_invalida. rewrite !app_nil_r, <- !app_assoc. reflexivity.
Qed.

(** A line the parser gives a frame for: the loop applies the frame. *)
Lemma paso_aceptada linea t d st st1 o :
  parseLinea linea = Some (Some t, d) ->
  procesar t st = Some (st1, o) ->
  exists o1, paso linea st = Some (st1, o1).
Proof.
  intros H Hp. unfold paso. rewrite H. cbn [bind cout ret]. rewrite Hp.
  cbn [bind cout ret]. eauto.
Qed.

Lemma tramas_de_cons l ls :
  tramas_de (l :: ls) =
  match trama_de l with
  | Some t => t :: tramas_de ls
  | None => tramas_de ls
  end.
Proof. reflexivity. Qed.

(** The loop over lines, from a reachable state: it returns, and the list
    grows by the characters expected for the frames parsed. *)
Lemma bucle_forma lineas : forall h cs,
  (h < 26)%nat ->
  exists ds h1 o,
    (h1 < 26)%nat /\
    decodificados (RotorDeMapeo.mk anillo (Some h) 26) (tramas_de lineas) = Some ds /\
    bucle lineas
      {| carga := lista_de cs; rotor := RotorDeMapeo.mk anillo (Some h) 26 |}
    = Some ({| carga := lista_de (cs ++ ds);
               rotor := RotorDeMapeo.mk anillo (Some h1) 26 |}, o).
Proof.
  induction lineas as [|l ls IH]; intros h cs Hh.
  - exists [], h, []. rewrite app_nil_r. repeat split; assumption.
  - destruct (parseLinea_total l) as ([t|] & d & Hparse).
    + assert (tramas_de (l :: ls) = t :: tramas_de ls) as ->
        by (rewrite tramas_de_cons; unfold trama_de; rewrite Hparse; reflexivity).
      cbn [bucle decodificados]. destruct t as [f|n].
      * destruct (getMapeo_total h f Hh) as [dec Hdec].
        destruct (procesar_load f cs h dec Hh Hdec) as [o1 Ho1].
        destruct (paso_aceptada l _ d _ _ _ Hparse Ho1) as [o2 Hpaso].
        destruct (IH h (cs ++ [dec]) Hh) as (ds & h2 & o3 & Hh2 & Hds & Hrun).
        rewrite Hpaso, Hdec, Hds. cbn [bind]. rewrite Hrun.
        rewrite <- app_assoc. cbn [app]. eauto 10.
      * destruct (rotar_forma n h Hh) as [o0 Ho0].
        destruct (procesar_map n (lista_de cs) h Hh) as [o1 Ho1].
        destruct (paso_aceptada l _ d _ _ _ Hparse Ho1) as [o2 Hpaso].
        destruct (IH ((h + Z.to_nat (n mod 26)) mod 26)%nat cs)
          as (ds & h2 & o3 & Hh2 & Hds & Hrun);
          [apply Nat.mod_upper_bound; lia|].
        rewrite Hpaso, Ho0, Hds. cbn [bind]. rewrite Hrun. eauto 10.
    + assert (tramas_de (l :: ls) = tramas_de ls) as ->
        by (rewrite tramas_de_cons; unfold trama_de; rewrite Hparse; reflexivity).
      destruct (IH h cs Hh) as (ds & h1 & o1 & Hh1 & Hds & Hrun).
      cbn [bucle]. rewrite (paso_rechazada l d _ Hparse). cbn [bind]. rewrite Hrun.
      eauto 10.
Qed.

(** C5: whatever frames the loop applies to a reachable state, it returns,
    and the list then holds what it held before followed by the outputs of
    [getMapeo] for the LOAD frames, in order of arrival, each taken with the
    rotor of that moment; nothing is removed, replaced or moved. *)
Theorem C5_acumulador_solo_anexa :
  forall st, estado_alcanzable st ->
    exists cs,
      ListaDeCarga.contenido (carga st) = Some cs /\
      (forall ts, exists ds st1 o,
         decodificados (rotor st) ts = Some ds /\
         procesar_todas ts st = Some (st1, o) /\
         ListaDeCarga.contenido (carga st1) = Some (cs ++ ds)) /\
      (forall lineas, exists ds st1 o,
         decodificados (rotor st) (tramas_de lineas) = Some ds /\
         bucle lineas st = Some (st1, o) /\
         ListaDeCarga.contenido (carga st1) = Some (cs ++ ds)).
Proof.
  intros st Hst. destruct (estado_alcanzable_forma st Hst) as (h & cs & Hh & ->).
  exists cs. cbn [carga rotor]. split; [apply contenido_lista_de|]. split.
  - intros ts.
    destruct (procesar_todas_forma ts h cs Hh) as (ds & h1 & o & _ & Hds & Hrun).
    eexists ds, _, o. split; [exact Hds|]. split; [exact Hrun|].
    apply contenido_lista_de.
  - intros lineas.
    destruct (bucle_forma lineas h cs Hh) as (ds & h1 & o & _ & Hds & Hrun).
    eexists ds, _, o. split; [exact Hds|]. split; [exact Hrun|].
    apply contenido_lista_de.
Qed.

Lemma C5_acumulador_solo_anexa_witness :
  exists cs,
    ListaDeCarga.contenido (carga estado_inicial) = Some cs /\
    (forall ts, exists ds st1 o,
       decodificados (rotor estado_inicial) ts = Some ds /\
       procesar_todas ts estado_inicial = Some (st1, o) /\
       ListaDeCarga.contenido (carga st1) = Some (cs ++ ds)) /\
    (forall lineas, exists ds st1 o,
       decodificados (rotor estado_inicial) (tramas_de lineas) = Some ds /\
       bucle lineas estado_inicial = Some (st1, o) /\
       ListaDeCarga.contenido (carga st1) = Some (cs ++ ds)).
Proof.
  exact (C5_acumulador_solo_anexa estado_inicial (ea_inicial _ new_rotor_inicial)).
Defined.

(** ** Lines by their shape *)

Lemma palabra_primero tok : palabra tok -> isspace (hd " "%char tok) = false.
Proof.
  intros [Hne Hall]. destruct tok as [|x t]; [contradiction|].
  apply Forall_inv in Hall. apply Hall.
Qed.

Lemma palabra_ultimo tok : palabra tok -> isspace (List.last tok " "%char) = false.
Proof.
  intros [Hne Hall]. destruct tok as [|x t] using rev_ind; [contradiction|].
  rewrite last_last. apply Forall_app in Hall as [_ Hx].
  apply Forall_inv in Hx. apply Hx.
Qed.

Lemma palabra_sin_coma tok : palabra tok -> sin_coma tok.
Proof.
  intros [_ Hall]. eapply Forall_impl; [exact Hall|]. intros ch [_ H]. exact H.
Qed.

Lemma palabra_uno ch : isspace ch = false -> ch <> ","%char -> palabra [ch].
Proof.
  intros H1 H2. split; [discriminate|]. constructor; [split; assumption|constructor].
Qed.

Lemma trim_palabra e1 tok e2 :
  espacios e1 -> espacios e2 -> palabra tok -> trim (e1 ++ tok ++ e2) = tok.
Proof.
  intros He1 He2 Htok.
  apply trim_nucleo; auto using palabra_primero, palabra_ultimo.
Qed.

Lemma trim_palabra_sola tok : palabra tok -> trim tok = tok.
Proof.
  intros Htok.
  pose proof (trim_palabra [] tok [] ltac:(constructor) ltac:(constructor) Htok) as H.
  cbn [app] in H. rewrite app_nil_r in H. exact H.
Qed.

Lemma length_no_cero (tok : texto) : tok <> [] -> (length tok =? 0)%nat = false.
Proof. destruct tok; [contradiction|reflexivity]. Qed.

(** The parser on a buffer that holds a token and a comma after it. *)
Lemma parse_cabecera_coma linea e1 tok e2 X :
  copiar_a_buffer linea = e1 ++ tok ++ e2 ++ ","%char :: X ->
  espacios e1 -> espacios e2 -> palabra tok ->
  parseLinea linea = por_tipo tok (cortar_final X).
Proof.
  intros Hbuf He1 He2 Htok. unfold parseLinea. rewrite Hbuf. cbv zeta.
  assert (trim (e1 ++ tok ++ e2 ++ ","%char :: X)
          = (tok ++ e2) ++ ","%char :: cortar_final X) as ->.
  { unfold trim. rewrite saltar_espacios_app by assumption.
    pose proof (palabra_primero tok Htok) as Hhd.
    destruct Htok as [Hne _]. destruct tok as [|x t]; [contradiction|].
    cbn [hd] in Hhd. cbn [app]. rewrite saltar_espacios_cons by assumption.
    change (x :: t ++ e2 ++ ","%char :: X) with ((x :: t) ++ e2 ++ ","%char :: X).
    rewrite app_assoc. apply cortar_final_medio, coma_no_espacio. }
  rewrite length_no_cero by (destruct Htok as [Hne _]; destruct tok; [contradiction|discriminate]).
  change ((tok ++ e2) ++ ","%char :: cortar_final X)
    with ([] ++ (tok ++ e2) ++ ","%char :: cortar_final X).
  rewrite strtok_token.
  - rewrite <- (app_nil_l (tok ++ e2)), trim_palabra by (assumption || constructor).
    rewrite length_no_cero by apply Htok. reflexivity.
  - constructor.
  - destruct Htok as [Hne _]. destruct tok; [contradiction|discriminate].
  - apply Forall_app. split; [apply palabra_sin_coma|apply espacios_sin_coma]; assumption.
Qed.

(** The parser on a buffer that holds a token and no comma. *)
Lemma parse_cabecera_fin linea e1 tok e2 :
  copiar_a_buffer linea = e1 ++ tok ++ e2 ->
  espacios e1 -> espacios e2 -> palabra tok ->
  parseLinea linea = por_tipo tok [].
Proof.
  intros Hbuf He1 He2 Htok. unfold parseLinea. rewrite Hbuf. cbv zeta.
  rewrite trim_palabra by assumption.
  rewrite length_no_cero by apply Htok.
  rewrite <- (app_nil_l tok) at 1.
  rewrite strtok_token_fin; [|constructor|apply Htok|apply palabra_sin_coma; assumption].
  rewrite trim_palabra_sola by assumption.
  rewrite length_no_cero by apply Htok. reflexivity.
Qed.

Lemma por_tipo_L ty resto :
  ty = "L"%char \/ ty = "l"%char -> por_tipo [ty] resto = trama_load resto.
Proof. intros [-> | ->]; reflexivity. Qed.

Lemma por_tipo_M ty resto :
  ty = "M"%char \/ ty = "m"%char -> por_tipo [ty] resto = trama_map resto.
Proof. intros [-> | ->]; reflexivity. Qed.


Lemma trama_load_sin_argumento resto :
  fst (strtok resto) = None ->
  trama_load resto = Some (None, T "Trama L sin argumento." ++ endl).
Proof. intros H. unfold trama_load. rewrite H. reflexivity. Qed.


Lemma trama_map_argumento resto arg :
  fst (strtok resto) = Some arg ->
  trama_map resto = Some (Some (TramaMap (atoi (trim arg))), []).
Proof. intros H. unfold trama_map. rewrite H. reflexivity. Qed.

(** An argument of whitespace only: no frame, and no text. *)
Lemma trama_load_en_blanco resto arg :
  fst (strtok resto) = Some arg -> espacios arg ->
  trama_load resto = Some (None, []).
Proof.
  intros H He. unfold trama_load. rewrite H. cbv zeta.
  rewrite trim_espacios by assumption. reflexivity.
Qed.

Lemma espacios_take n e : espacios e -> espacios (take n e).
Proof. apply Forall_take. Qed.

Lemma strtok_nil : strtok [] = (None, []).
Proof. reflexivity. Qed.

(** ** Claims about lines the parser rejects *)

(** C7, as the program has it: a line that is empty or whitespace only
    gives no frame and the parser writes nothing about it; the loop leaves
    the list and the rotor as they are, and writes, after the echo of the
    line, its remark that the frame is invalid and ignored. *)
Theorem C7_linea_en_blanco :
  forall linea, espacios (c_str linea) ->
    parseLinea linea = Some (None, []) /\
    forall st, paso linea st = Some (st, eco linea ++ aviso_invalida).
Proof.
  intros linea He.
  assert (parseLinea linea = Some (None, [])) as Hp.
  { unfold parseLinea, copiar_a_buffer.
    rewrite trim_espacios by (apply espacios_take; assumption). reflexivity. }
  split; [exact Hp|]. intros st.
  rewrite (paso_rechazada linea [] st Hp). reflexivity.
Qed.

Lemma C7_linea_en_blanco_witness :
  parseLinea (T "   ") = Some (None, []) /\
  forall st, paso (T "   ") st = Some (st, eco (T "   ") ++ aviso_invalida).
Proof.
  apply (C7_linea_en_blanco (T "   ")).
  repeat constructor.
Defined.

(** C7 as stated fails: for the line of three spaces the loop does write a
    failure remark after the echo. *)
Lemma C7_contraejemplo :
  paso (T "   ") estado_inicial
  = Some (estado_inicial,
          T "Trama recibida: [   ]  -> Trama inválida. Se ignora." ++ endl)
  /\ T "Trama recibida: [   ]  -> Trama inválida. Se ignora." ++ endl
     <> eco (T "   ").
Proof. split; [vm_compute; reflexivity|vm_compute; discriminate]. Qed.

(** C10, as the program has it: in a LOAD line whose first field after
    the type that is not empty holds whitespace only and is followed by a
    comma, the parser gives no frame and writes nothing, so that only the
    remark of the loop appears, and no later field is taken as the
    character. *)
Theorem C10_argumento_en_blanco :
  forall linea e1 ty e2 cs w resto,
    copiar_a_buffer linea = e1 ++ ty :: e2 ++ ","%char :: cs ++ w ++ ","%char :: resto ->
    espacios e1 -> espacios e2 -> ty = "L"%char \/ ty = "l"%char ->
    comas cs -> w <> [] -> espacios w ->
    parseLinea linea = Some (None, []) /\
    forall st, paso linea st = Some (st, eco linea ++ aviso_invalida).
Proof.
  intros linea e1 ty e2 cs w resto Hbuf He1 He2 Hty Hcs Hw Hew.
  assert (parseLinea linea = Some (None, [])) as Hp.
  { assert (palabra [ty]) as Hpal
      by (destruct Hty as [-> | ->]; apply palabra_uno; (reflexivity || discriminate)).
    rewrite (parse_cabecera_coma linea e1 [ty] e2 (cs ++ w ++ ","%char :: resto));
      try assumption.
    rewrite por_tipo_L by assumption.
    apply (trama_load_en_blanco _ w); [|assumption].
    rewrite (app_assoc cs w), cortar_final_medio by apply coma_no_espacio.
    rewrite <- app_assoc, strtok_token; auto using espacios_sin_coma. }
  split; [exact Hp|]. intros st.
  rewrite (paso_rechazada linea [] st Hp). reflexivity.
Qed.

Lemma C10_argumento_en_blanco_witness :
  parseLinea (T "L, ,X") = Some (None, []) /\
  forall st, paso (T "L, ,X") st = Some (st, eco (T "L, ,X") ++ aviso_invalida).
Proof.
  apply (C10_argumento_en_blanco (T "L, ,X") [] "L" [] [] (T " ") (T "X")).
  - reflexivity.
  - constructor.
  - constructor.
  - left. reflexivity.
  - constructor.
  - discriminate.
  - repeat constructor.
Defined.

(** C10 as stated fails: an empty field is skipped by [strtok], so the
    line L,,X gives the frame for X; and a line longer than the buffer
    loses its second comma, so the remark about the missing argument is
    written. *)
Lemma C10_contraejemplo :
  parseLinea (T "L,,X") = Some (Some (TramaLoad "X"), []) /\
  parseLinea (T "L," ++ repeat " "%char 126 ++ T ",X")
  = Some (None, T "Trama L sin argumento." ++ endl).
Proof. split; vm_compute; reflexivity. Qed.

(** ** [atoi] *)

Lemma acumular_digitos ds : forall acc resto,
  digitos ds -> sin_digito_al_frente resto ->
  acumular acc (ds ++ resto) = fold_left (fun a ch => a * 10 + (code ch - 48)) ds acc.
Proof.
  induction ds as [|d ds IH]; intros acc resto Hds Hr.
  - cbn [app fold_left]. destruct resto as [|ch r]; [reflexivity|].
    cbn [acumular]. cbn in Hr. rewrite Hr. reflexivity.
  - apply Forall_cons in Hds as [Hd Hds].
    cbn [app acumular fold_left]. rewrite Hd. apply IH; assumption.
Qed.

Lemma digito_no_signo ch :
  isdigit ch = true -> isspace ch = false /\ ch <> "-"%char /\ ch <> "+"%char.
Proof.
  unfold isdigit, isspace. intros H.
  apply andb_true_iff in H as [H1 H2]. apply Z.leb_le in H1, H2.
  split; [|split].
  - apply orb_false_iff. split; [apply Z.eqb_neq; lia|].
    apply andb_false_iff. right. apply Z.leb_gt. lia.
  - intros ->. vm_compute in H1. apply H1. reflexivity.
  - intros ->. vm_compute in H1. apply H1. reflexivity.
Qed.

(** [strtol] reads the number of the lenient prefix parse, clamped. *)
Lemma strtol_prefijo s v :
  prefijo_numerico s v -> strtol s = Z.max LONG_MIN (Z.min LONG_MAX v).
Proof.
  destruct 1 as [ds resto Hds Hr | ds resto Hds Hr | ds resto Hne Hds Hr | s H1 H2 H3 H4];
    unfold strtol.
  - rewrite saltar_espacios_cons by reflexivity. cbn [Ascii.eqb Bool.eqb andb].
    rewrite acumular_digitos by assumption. reflexivity.
  - rewrite saltar_espacios_cons by reflexivity. cbn [Ascii.eqb Bool.eqb andb].
    rewrite acumular_digitos by assumption. reflexivity.
  - destruct ds as [|d ds]; [contradiction|].
    pose proof (Forall_inv Hds) as Hd. cbn beta in Hd.
    destruct (digito_no_signo d Hd) as (Hsp & Hm & Hp).
    cbn [app]. rewrite saltar_espacios_cons by assumption.
    destruct (Ascii.eqb_spec d "-"); [contradiction|].
    destruct (Ascii.eqb_spec d "+"); [contradiction|].
    change (d :: ds ++ resto) with ((d :: ds) ++ resto).
    rewrite acumular_digitos by assumption. reflexivity.
  - destruct s as [|ch r]; [reflexivity|]. cbn [primero hd] in *.
    rewrite saltar_espacios_cons by assumption.
    destruct (Ascii.eqb_spec ch "-"); [contradiction|].
    destruct (Ascii.eqb_spec ch "+"); [contradiction|].
    cbn [acumular]. rewrite H1. reflexivity.
Qed.

Lemma to_int_rango v :
  - 2 ^ 31 <= v < 2 ^ 31 -> to_int (Z.max LONG_MIN (Z.min LONG_MAX v)) = v.
Proof.
  intros Hv. unfold to_int, LONG_MIN, LONG_MAX.
  rewrite Z.min_r by lia. rewrite Z.max_r by lia.
  rewrite Z.mod_small by lia. lia.
Qed.

Lemma atoi_prefijo s v :
  prefijo_numerico s v -> - 2 ^ 31 <= v < 2 ^ 31 -> atoi s = v.
Proof.
  intros Hp Hv. unfold atoi. rewrite (strtol_prefijo s v Hp).
  apply to_int_rango. assumption.
Qed.

(** ** Claims about accepted lines *)

Lemma trim_cortado a ch e :
  isspace ch = false -> espacios e -> trim (a ++ ch :: e) = trim (a ++ [ch]).
Proof.
  intros Hch He. unfold trim.
  rewrite !saltar_espacios_medio by assumption.
  rewrite !cortar_final_medio by assumption.
  rewrite cortar_final_espacios by assumption. reflexivity.
Qed.

(** C6, as the program has it: in a MAP line the argument is the first
    field after the type that is not empty, fields being cut at commas by
    [strtok]; trimmed, it is read by [atoi], a lenient parse of a numeric
    prefix.  So M,,5 gives the displacement 5 and M,2,3 gives 2. *)
Theorem C6_argumento_de_map :
  (forall linea e1 ty e2 cs arg fin,
     copiar_a_buffer linea = e1 ++ ty :: e2 ++ ","%char :: cs ++ arg ++ fin ->
     espacios e1 -> espacios e2 -> ty = "M"%char \/ ty = "m"%char ->
     comas cs -> sin_coma arg ->
     (arg <> [] /\ exists resto, fin = ","%char :: resto)
     \/ (~ espacios arg /\ fin = []) ->
     parseLinea linea = Some (Some (TramaMap (atoi (trim arg))), [])) /\
  (forall s v, prefijo_numerico s v -> - 2 ^ 31 <= v < 2 ^ 31 -> atoi s = v) /\
  parseLinea (T "M,,5") = Some (Some (TramaMap 5), []) /\
  parseLinea (T "M,2,3") = Some (Some (TramaMap 2), []).
Proof.
  split; [|split; [exact atoi_prefijo|split; vm_compute; reflexivity]].
  intros linea e1 ty e2 cs arg fin Hbuf He1 He2 Hty Hcs Harg Hfin.
  assert (palabra [ty]) as Hpal
    by (destruct Hty as [-> | ->]; apply palabra_uno; (reflexivity || discriminate)).
  rewrite (parse_cabecera_coma linea e1 [ty] e2 (cs ++ arg ++ fin)) by assumption.
  rewrite por_tipo_M by assumption.
  destruct Hfin as [[Hne [resto ->]] | [Hne ->]].
  - apply trama_map_argumento.
    rewrite (app_assoc cs arg), cortar_final_medio by apply coma_no_espacio.
    rewrite <- app_assoc, strtok_token by assumption. reflexivity.
  - destruct (ultimo_no_espacio arg) as [He|(a & ch & e & -> & Hch & He)];
      [contradiction|].
    rewrite app_nil_r, trim_cortado by assumption.
    apply trama_map_argumento.
    rewrite app_assoc, cortar_final_medio, cortar_final_espacios by assumption.
    rewrite <- app_assoc. cbn [app].
    rewrite strtok_token_fin; [reflexivity|assumption|destruct a; discriminate|].
    apply Forall_app in Harg as [Ha Hr]. apply Forall_cons in Hr as [Hc _].
    apply Forall_app. split; [assumption|]. constructor; [assumption|constructor].
Qed.

Lemma C6_argumento_de_map_witness :
  parseLinea (T "M,,5") = Some (Some (TramaMap (atoi (trim (T "5")))), []).
Proof.
  apply (proj1 C6_argumento_de_map (T "M,,5") [] "M"%char [] (T ",") (T "5") []).
  - reflexivity.
  - constructor.
  - constructor.
  - left. reflexivity.
  - repeat constructor.
  - constructor; [discriminate|constructor].
  - right. split; [|reflexivity].
    intros H. apply Forall_inv in H. discriminate H.
Defined.

(** C6 as stated fails: cutting M,,5 at its first comma would leave the
    argument ,5 and read 0 from it, but the parser gives the displacement
    5. *)
Lemma C6_contraejemplo :
  parseLinea (T "M,,5") = Some (Some (TramaMap 5), []) /\
  atoi (trim (T ",5")) = 0 /\
  TramaMap 5 <> TramaMap 0.
Proof. split; [vm_compute; reflexivity|split; [vm_compute; reflexivity|discriminate]]. Qed.

(** *** Where the characters of a token come from *)

Lemma saltar_espacios_In s x : In x (saltar_espacios s) -> In x s.
Proof.
  induction s as [|ch s IH]; [intros []|].
  cbn [saltar_espacios]. destruct (isspace ch); [|exact id].
  intros H. right. apply IH, H.
Qed.

Lemma cortar_final_In s x : In x (cortar_final s) -> In x s.
Proof.
  unfold cortar_final. intros H.
  apply in_rev in H. apply saltar_espacios_In in H. apply in_rev. exact H.
Qed.

Lemma trim_In s x : In x (trim s) -> In x s.
Proof. intros H. apply saltar_espacios_In, cortar_final_In, H. Qed.

Lemma saltar_comas_In s x : In x (saltar_comas s) -> In x s.
Proof.
  induction s as [|ch s IH]; [intros []|].
  cbn [saltar_comas]. destruct (Ascii.eqb ch ","); [|exact id].
  intros H. right. apply IH, H.
Qed.

Lemma hasta_coma_partes s :
  sin_coma (fst (hasta_coma s)) /\
  (forall x, In x (fst (hasta_coma s)) -> In x s) /\
  (forall x, In x (snd (hasta_coma s)) -> In x s).
Proof.
  induction s as [|ch s (IH1 & IH2 & IH3)].
  - repeat split; [constructor| |]; intros x [].
  - cbn [hasta_coma]. destruct (Ascii.eqb_spec ch ",") as [->|Hne].
    + repeat split; [constructor| |]; cbn [fst snd]; [intros x []|].
      intros x H. right. exact H.
    + destruct (hasta_coma s) as [tok resto]. cbn [fst snd] in *.
      repeat split.
      * constructor; assumption.
      * intros x [->|H]; [left; reflexivity|right; apply IH2, H].
      * intros x H. right. apply IH3, H.
Qed.

Lemma strtok_partes s tok resto :
  strtok s = (Some tok, resto) ->
  sin_coma tok /\ (forall x, In x tok -> In x s) /\ (forall x, In x resto -> In x s).
Proof.
  unfold strtok. destruct (saltar_comas s) as [|ch s1] eqn:E; [discriminate|].
  destruct (hasta_coma_partes (ch :: s1)) as (H1 & H2 & H3).
  destruct (hasta_coma (ch :: s1)) as [tok1 resto1]. cbn [fst snd] in *.
  intros [= <- <-]. split; [assumption|].
  split; intros x H; apply saltar_comas_In; rewrite E; auto.
Qed.

Lemma take_In {A} n (l : list A) x : In x (take n l) -> In x l.
Proof.
  revert n. induction l as [|y l IH]; intros [|n]; cbn; try tauto.
  intros [->|H]; [left; reflexivity|right; eapply IH, H].
Qed.

Lemma c_str_corta s : Forall (fun ch => ch <> NUL) s -> c_str s = s.
Proof.
  induction 1 as [|ch s Hch _ IH]; [reflexivity|].
  cbn [c_str]. destruct (Ascii.eqb_spec ch NUL); [contradiction|].
  rewrite IH. reflexivity.
Qed.

(** A line without NUL that fits the buffer is copied whole. *)
Lemma copiar_a_buffer_corta linea :
  Forall (fun ch => ch <> NUL) linea -> (length linea <= 127)%nat ->
  copiar_a_buffer linea = linea.
Proof.
  intros Hnul Hlen. unfold copiar_a_buffer.
  rewrite c_str_corta by assumption. apply take_ge. lia.
Qed.

Lemma strcasecmp_uno ch : (strcasecmp [ch] (T "Space") =? 0) = false.
Proof.
  cbn [strcasecmp T list_ascii_of_string].
  destruct (code (tolower ch) - code (tolower "S") =? 0) eqn:E.
  - reflexivity.
  - exact E.
Qed.

(** C9 as stated fails: the line L,5 gives a LOAD frame that holds the
    digit 5, which is neither a letter nor the space. *)
Lemma C9_contraejemplo :
  parseLinea (T "L,5") = Some (Some (TramaLoad "5"), []) /\
  ~ mayuscula "5" /\ ~ minuscula "5" /\ "5"%char <> " "%char.
Proof.
  split; [vm_compute; reflexivity|].
  unfold mayuscula, minuscula. vm_compute.
  repeat split; intros H; try discriminate H; destruct H as [H _]; apply H; reflexivity.
Qed.

(** ** Further properties of the rotor *)

(** X1: on a reachable rotor whose offset is [k], [getMapeo] sends the
    upper-case letter number [i] of the alphabet to the letter number
    [(i + k) mod 26]. *)
Theorem X1_getMapeo_cesar :
  forall r k x,
    alcanzable r -> offset r = Some k -> mayuscula x ->
    RotorDeMapeo.getMapeo x r
    = Some (char (code "A" + (code x - code "A" + k) mod 26)).
Proof.
  intros r k x Hr Hk Hx. destruct (alcanzable_forma r Hr) as (h & Hh & ->).
  rewrite offset_forma in Hk by assumption. injection Hk as <-.
  rewrite getMapeo_mayuscula by assumption.
  change (code "A") with 65.
  replace (code x - 65 + Z.of_nat h) with (Z.of_nat h + (code x - 65)) by lia.
  reflexivity.
Qed.

Lemma X1_getMapeo_cesar_witness :
  RotorDeMapeo.getMapeo "H" rotor_inicial
  = Some (char (code "A" + (code "H" - code "A" + 0) mod 26)).
Proof.
  apply (X1_getMapeo_cesar rotor_inicial 0 "H"%char).
  - exact (alc_new _ new_rotor_inicial).
  - vm_compute. reflexivity.
  - unfold mayuscula. vm_compute. split; discriminate.
Defined.

(** X2: on a reachable rotor a lower-case letter is decoded as its
    upper-case form, and the result is an upper-case letter. *)
Theorem X2_getMapeo_minusculas :
  forall r x,
    alcanzable r -> minuscula x ->
    exists y,
      RotorDeMapeo.getMapeo x r = Some y /\ mayuscula y /\
      RotorDeMapeo.getMapeo (char (code x - code "a" + code "A")) r = Some y.
Proof.
  intros r x Hr Hx.
  assert (mayuscula (char (code x - 32))) as Hup.
  { unfold mayuscula, minuscula in *.
    change (code "A") with 65. change (code "Z") with 90.
    change (code "a") with 97 in Hx. change (code "z") with 122 in Hx.
    rewrite code_char; lia. }
  destruct (alcanzable_forma r Hr) as (h & Hh & ->).
  rewrite getMapeo_minuscula by assumption.
  change (code "a") with 97. change (code "A") with 65.
  replace (code x - 97 + 65) with (code x - 32) by lia.
  rewrite getMapeo_mayuscula by assumption.
  eexists. split; [reflexivity|]. split; [|reflexivity].
  unfold mayuscula. change (code "A") with 65. change (code "Z") with 90.
  pose proof (Z.mod_pos_bound (Z.of_nat h + (code (char (code x - 32)) - 65)) 26
                ltac:(lia)).
  rewrite code_char; lia.
Qed.

Lemma X2_getMapeo_minusculas_witness :
  exists y,
    RotorDeMapeo.getMapeo "h" rotor_inicial = Some y /\ mayuscula y /\
    RotorDeMapeo.getMapeo (char (code "h" - code "a" + code "A")) rotor_inicial = Some y.
Proof.
  apply (X2_getMapeo_minusculas rotor_inicial "h"%char).
  - exact (alc_new _ new_rotor_inicial).
  - unfold minuscula. vm_compute. split; discriminate.
Defined.

Lemma avance_suma h a b :
  (h < 26)%nat ->
  (((h + Z.to_nat (a mod 26)) mod 26 + Z.to_nat (b mod 26)) mod 26)%nat
  = ((h + Z.to_nat ((a + b) mod 26)) mod 26)%nat.
Proof.
  intros Hh.
  pose proof (Z.mod_pos_bound a 26 ltac:(lia)).
  pose proof (Z.mod_pos_bound b 26 ltac:(lia)).
  pose proof (Z.mod_pos_bound (a + b) 26 ltac:(lia)).
  apply Nat2Z.inj.
  rewrite !Nat2Z.inj_mod, !Nat2Z.inj_add, !Nat2Z.inj_mod, !Nat2Z.inj_add, !Z2Nat.id by lia.
  Z.to_euclidean_division_equations. lia.
Qed.

(** X3: two rotations in a row leave the rotor where one rotation by the
    sum leaves it. *)
Theorem X3_rotar_suma :
  forall r a b,
    alcanzable r ->
    exists r1 o1 r2 o2 o3,
      RotorDeMapeo.rotar a r = Some (r1, o1) /\
      RotorDeMapeo.rotar b r1 = Some (r2, o2) /\
      RotorDeMapeo.rotar (a + b) r = Some (r2, o3).
Proof.
  intros r a b Hr. destruct (alcanzable_forma r Hr) as (h & Hh & ->).
  destruct (rotar_forma a h Hh) as (o1 & Ho1).
  destruct (rotar_forma b ((h + Z.to_nat (a mod 26)) mod 26)%nat) as (o2 & Ho2);
    [apply Nat.mod_upper_bound; lia|].
  destruct (rotar_forma (a + b) h Hh) as (o3 & Ho3).
  rewrite avance_suma in Ho2 by assumption.
  eexists _, o1, _, o2, o3. repeat split; eassumption.
Qed.

Lemma X3_rotar_suma_witness :
  exists r1 o1 r2 o2 o3,
    RotorDeMapeo.rotar 20 rotor_inicial = Some (r1, o1) /\
    RotorDeMapeo.rotar (-33) r1 = Some (r2, o2) /\
    RotorDeMapeo.rotar (20 + -33) rotor_inicial = Some (r2, o3).
Proof.
  exact (X3_rotar_suma rotor_inicial 20 (-33) (alc_new _ new_rotor_inicial)).
Defined.

(** X4: rotations by numbers that are congruent modulo 26 leave the rotor
    in the same state; a rotation by a multiple of 26 leaves it as it
    is. *)
Theorem X4_rotar_periodo :
  forall r a b,
    alcanzable r -> a mod 26 = b mod 26 ->
    (exists r1 o1 o2,
       RotorDeMapeo.rotar a r = Some (r1, o1) /\
       RotorDeMapeo.rotar b r = Some (r1, o2)) /\
    (a mod 26 = 0 -> exists o, RotorDeMapeo.rotar a r = Some (r, o)).
Proof.
  intros r a b Hr Hab. destruct (alcanzable_forma r Hr) as (h & Hh & ->).
  destruct (rotar_forma a h Hh) as (o1 & Ho1).
  destruct (rotar_forma b h Hh) as (o2 & Ho2).
  rewrite <- Hab in Ho2. split.
  - eexists _, o1, o2. split; eassumption.
  - intros H0. rewrite H0 in Ho1. change (Z.to_nat 0) with 0%nat in Ho1.
    rewrite Nat.add_0_r, Nat.mod_small in Ho1 by assumption.
    exists o1. exact Ho1.
Qed.

Lemma X4_rotar_periodo_witness :
  (exists r1 o1 o2,
     RotorDeMapeo.rotar 28 rotor_inicial = Some (r1, o1) /\
     RotorDeMapeo.rotar (-24) rotor_inicial = Some (r1, o2)) /\
  (28 mod 26 = 0 -> exists o, RotorDeMapeo.rotar 28 rotor_inicial = Some (rotor_inicial, o)).
Proof.
  apply (X4_rotar_periodo rotor_inicial 28 (-24)).
  - exact (alc_new _ new_rotor_inicial).
  - reflexivity.
Defined.

Lemma alcanzable_rotor_tras N : alcanzable (rotor_tras N).
Proof.
  unfold rotor_tras.
  destruct (RotorDeMapeo.rotar N rotor_inicial) as [[r o]|] eqn:E.
  - eapply alc_rotar; [exact (alc_new _ new_rotor_inicial)|exact E].
  - exact (alc_new _ new_rotor_inicial).
Qed.

(** X5: two reachable rotors whose offsets add up to a multiple of 26
    undo each other: what one makes of an upper-case letter, the other
    maps back to that letter. *)
Theorem X5_rotores_inversos :
  forall r1 r2 k1 k2 x,
    alcanzable r1 -> alcanzable r2 ->
    offset r1 = Some k1 -> offset r2 = Some k2 -> (k1 + k2) mod 26 = 0 ->
    mayuscula x ->
    exists y,
      RotorDeMapeo.getMapeo x r2 = Some y /\ mayuscula y /\
      RotorDeMapeo.getMapeo y r1 = Some x.
Proof.
  intros r1 r2 k1 k2 x Hr1 Hr2 Hk1 Hk2 Hsum Hx.
  destruct (alcanzable_forma r1 Hr1) as (h1 & Hh1 & ->).
  destruct (alcanzable_forma r2 Hr2) as (h2 & Hh2 & ->).
  rewrite offset_forma in Hk1, Hk2 by assumption.
  injection Hk1 as <-. injection Hk2 as <-.
  unfold mayuscula in Hx. change (code "A") with 65 in Hx. change (code "Z") with 90 in Hx.
  pose proof (Z.mod_pos_bound (Z.of_nat h2 + (code x - 65)) 26 ltac:(lia)) as Hb.
  assert (code (char (65 + (Z.of_nat h2 + (code x - 65)) mod 26))
          = 65 + (Z.of_nat h2 + (code x - 65)) mod 26) as Hc
    by (rewrite code_char; lia).
  assert (mayuscula (char (65 + (Z.of_nat h2 + (code x - 65)) mod 26))) as Hy.
  { unfold mayuscula. change (code "A") with 65. change (code "Z") with 90.
    rewrite Hc. lia. }
  eexists. split; [apply getMapeo_mayuscula; [assumption|]|].
  { unfold mayuscula. change (code "A") with 65. change (code "Z") with 90. lia. }
  split; [exact Hy|].
  rewrite getMapeo_mayuscula by assumption. rewrite Hc.
  f_equal. apply code_iny. rewrite code_char.
  - Z.to_euclidean_division_equations. lia.
  - pose proof (Z.mod_pos_bound
                  (Z.of_nat h1 + (65 + (Z.of_nat h2 + (code x - 65)) mod 26 - 65)) 26
                  ltac:(lia)). lia.
Qed.

Lemma X5_rotores_inversos_witness :
  exists y,
    RotorDeMapeo.getMapeo "W" (rotor_tras 24) = Some y /\ mayuscula y /\
    RotorDeMapeo.getMapeo y (rotor_tras 2) = Some "W"%char.
Proof.
  apply (X5_rotores_inversos (rotor_tras 2) (rotor_tras 24) 2 24 "W"%char).
  - apply alcanzable_rotor_tras.
  - apply alcanzable_rotor_tras.
  - vm_compute. reflexivity.
  - vm_compute. reflexivity.
  - reflexivity.
  - unfold mayuscula. vm_compute. split; discriminate.
Defined.

Lemma leer_desde_anillo_26 h :
  (h < 26)%nat ->
  RotorDeMapeo.leer_desde anillo 26 (Some h)
  = Some (drop h RotorDeMapeo.letras ++ take h RotorDeMapeo.letras).
Proof.
  intros Hh.
  do 26 (destruct h as [|h]; [vm_compute; reflexivity|]).
  lia.
Qed.

(** X6: on a reachable rotor whose offset is [k], [imprimirEstado] writes
    the 26 letters once each, from the letter number [k] on and wrapping
    after Z. *)
Theorem X6_imprimirEstado :
  forall r k,
    alcanzable r -> offset r = Some k ->
    RotorDeMapeo.imprimirEstado r
    = Some (tt, T "Estado rotor (desde head): "
                ++ drop (Z.to_nat k) RotorDeMapeo.letras
                ++ take (Z.to_nat k) RotorDeMapeo.letras ++ endl).
Proof.
  intros r k Hr Hk. destruct (alcanzable_forma r Hr) as (h & Hh & ->).
  rewrite offset_forma in Hk by assumption. injection Hk as <-.
  rewrite Nat2Z.id.
  unfold RotorDeMapeo.imprimirEstado.
  cbn [RotorDeMapeo.head RotorDeMapeo.mem RotorDeMapeo.size].
  change (Z.to_nat 26) with 26%nat.
  rewrite leer_desde_anillo_26 by assumption.
  cbn [deref bind ret cout app]. rewrite <- !app_assoc. reflexivity.
Qed.

Lemma X6_imprimirEstado_witness :
  RotorDeMapeo.imprimirEstado rotor_inicial
  = Some (tt, T "Estado rotor (desde head): "
              ++ drop (Z.to_nat 0) RotorDeMapeo.letras
              ++ take (Z.to_nat 0) RotorDeMapeo.letras ++ endl).
Proof.
  apply (X6_imprimirEstado rotor_inicial 0).
  - exact (alc_new _ new_rotor_inicial).
  - vm_compute. reflexivity.
Defined.

Lemma mod26_vecinos a :
  (a < 26)%nat ->
  (((a + 25) mod 26 + 1) mod 26 = a /\ ((a + 1) mod 26 + 25) mod 26 = a)%nat.
Proof.
  intros Ha. do 26 (destruct a as [|a]; [split; reflexivity|]). lia.
Qed.

Lemma mod26_vuelta a k :
  (a < 26)%nat -> ((a + k) mod 26 = a <-> k mod 26 = 0)%nat.
Proof.
  intros Ha. rewrite <- !Nat2Z.inj_iff, !Nat2Z.inj_mod, Nat2Z.inj_add.
  change (Z.of_nat 26) with 26. change (Z.of_nat 0) with 0.
  split; intros H; Z.to_euclidean_division_equations; lia.
Qed.

Lemma length_anillo : length anillo = 26%nat.
Proof. vm_compute. reflexivity. Qed.

(** X7: every reachable rotor is a well-formed circular doubly linked list
    of 26 nodes: each node has both neighbours, the [next] of its [prev]
    and the [prev] of its [next] are the node itself, and following [next]
    from a node comes back to it after the multiples of 26 steps and after
    no other number of steps. *)
Theorem X7_anillo_bien_formado :
  forall r,
    alcanzable r ->
    RotorDeMapeo.size r = 26 /\
    length (RotorDeMapeo.mem r) = 26%nat /\
    (forall a n,
       RotorDeMapeo.mem r !! a = Some n ->
       exists p s np ns,
         NodoRotor.prev n = Some p /\ NodoRotor.next n = Some s /\
         RotorDeMapeo.mem r !! p = Some np /\ NodoRotor.next np = Some a /\
         RotorDeMapeo.mem r !! s = Some ns /\ NodoRotor.prev ns = Some a) /\
    (forall a k,
       (a < 26)%nat ->
       RotorDeMapeo.avanzar (RotorDeMapeo.mem r) k (Some a) = Some (Some a)
       <-> (k mod 26 = 0)%nat).
Proof.
  intros r Hr. destruct (alcanzable_forma r Hr) as (h & Hh & ->).
  cbn [RotorDeMapeo.size RotorDeMapeo.mem].
  split; [reflexivity|]. split; [apply length_anillo|]. split.
  - intros a n Hn.
    assert (a < 26)%nat as Ha
      by (rewrite <- length_anillo; eapply lookup_lt_Some; exact Hn).
    pose proof (anillo_nodo a Ha) as Hna.
    match type of Hna with _ = Some ?x => assert (n = x) as -> by congruence end.
    clear Hn Hna.
    destruct (mod26_vecinos a Ha) as [E1 E2].
    assert ((a + 25) mod 26 < 26)%nat as Hp by (apply Nat.mod_upper_bound; lia).
    assert ((a + 1) mod 26 < 26)%nat as Hs by (apply Nat.mod_upper_bound; lia).
    pose proof (anillo_nodo _ Hp) as Hnp. pose proof (anillo_nodo _ Hs) as Hns.
    rewrite E1 in Hnp. rewrite E2 in Hns.
    set (p := ((a + 25) mod 26)%nat) in *. set (s := ((a + 1) mod 26)%nat) in *.
    clearbody p s.
    eexists p, s, _, _.
    split; [reflexivity|]. split; [reflexivity|].
    split; [exact Hnp|]. split; [reflexivity|].
    split; [exact Hns|]. reflexivity.
  - intros a k Ha. rewrite avanzar_anillo by assumption.
    rewrite <- (mod26_vuelta a k Ha). split.
    + intros [= E]. exact E.
    + intros ->. reflexivity.
Qed.

Lemma X7_anillo_bien_formado_witness :
  RotorDeMapeo.size rotor_inicial = 26 /\
  length (RotorDeMapeo.mem rotor_inicial) = 26%nat /\
  (forall a n,
     RotorDeMapeo.mem rotor_inicial !! a = Some n ->
     exists p s np ns,
       NodoRotor.prev n = Some p /\ NodoRotor.next n = Some s /\
       RotorDeMapeo.mem rotor_inicial !! p = Some np /\ NodoRotor.next np = Some a /\
       RotorDeMapeo.mem rotor_inicial !! s = Some ns /\ NodoRotor.prev ns = Some a) /\
  (forall a k,
     (a < 26)%nat ->
     RotorDeMapeo.avanzar (RotorDeMapeo.mem rotor_inicial) k (Some a) = Some (Some a)
     <-> (k mod 26 = 0)%nat).
Proof.
  exact (X7_anillo_bien_formado rotor_inicial (alc_new _ new_rotor_inicial)).
Defined.

Lemma destructor_anillo h :
  (h < 26)%nat ->
  RotorDeMapeo.destructor (RotorDeMapeo.mk anillo (Some h) 26)
  = Some (replicate 26 None).
Proof.
  intros Hh.
  do 26 (destruct h as [|h]; [vm_compute; reflexivity|]).
  lia.
Qed.

(** X8: the destructor of a reachable rotor returns, wherever [head] is:
    cutting the ring before [head] ends the walk, every one of the 26
    nodes is freed, none is freed twice and none is read after it was
    freed. *)
Theorem X8_destructor_del_rotor :
  forall r,
    alcanzable r ->
    RotorDeMapeo.destructor r = Some (replicate (length (RotorDeMapeo.mem r)) None).
Proof.
  intros r Hr. destruct (alcanzable_forma r Hr) as (h & Hh & ->).
  cbn [RotorDeMapeo.mem]. rewrite length_anillo.
  apply destructor_anillo. assumption.
Qed.

Lemma X8_destructor_del_rotor_witness :
  RotorDeMapeo.destructor rotor_inicial
  = Some (replicate (length (RotorDeMapeo.mem rotor_inicial)) None).
Proof.
  exact (X8_destructor_del_rotor rotor_inicial (alc_new _ new_rotor_inicial)).
Defined.

(** ** Further properties of the list *)

Lemma insertar_todos_lista_de cs : forall cs0,
  insertar_todos cs (lista_de cs0) = Some (lista_de (cs0 ++ cs), []).
Proof.
  induction cs as [|d cs IH]; intros cs0.
  - rewrite app_nil_r. reflexivity.
  - cbn [insertar_todos]. rewrite insertarAlFinal_lista_de. cbn [bind].
    rewrite IH, <- app_assoc. reflexivity.
Qed.

Lemma insertar_todos_new cs l o :
  insertar_todos cs ListaDeCarga.new = Some (l, o) -> l = lista_de cs /\ o = [].
Proof.
  change ListaDeCarga.new with (lista_de []).
  rewrite insertar_todos_lista_de. cbn [app]. intros [= <- <-]. split; reflexivity.
Qed.

(** The walk along [prev] from node [i] of the list holding [cs] meets
    the characters from position [i] back to the first. *)
Lemma recorrer_atras_nodos cs i : forall fuel,
  (i < length cs)%nat -> (i < fuel)%nat ->
  recorrer_atras fuel (nodos cs) (Some i) = Some (rev (take (S i) cs)).
Proof.
  induction i as [|i IH]; intros fuel Hi Hf;
    (destruct fuel as [|fuel]; [lia|]);
    destruct (lookup_lt_is_Some_2 cs _ Hi) as [ci Hci];
    cbn [recorrer_atras]; rewrite nodos_lookup, Hci;
    cbn [fmap option_fmap option_map]; unfold nodo at 1;
    cbn [NodoCarga.prev NodoCarga.dato].
  - destruct fuel; cbn [recorrer_atras];
      rewrite (take_S_r _ _ _ Hci); reflexivity.
  - rewrite IH by lia. rewrite (take_S_r _ _ _ Hci), rev_app_distr. reflexivity.
Qed.

(** X9: characters inserted one after the other into the empty list are
    all stored, one node each; the walk from [head] along [next] meets
    them in the order of insertion and the walk from [tail] along [prev]
    meets them in the reverse order. *)
Theorem X9_insertar_y_recorrer :
  forall cs,
    exists l,
      insertar_todos cs ListaDeCarga.new = Some (l, []) /\
      length (ListaDeCarga.mem l) = length cs /\
      ListaDeCarga.contenido l = Some cs /\
      recorrer_atras (length (ListaDeCarga.mem l)) (ListaDeCarga.mem l)
        (ListaDeCarga.tail l) = Some (rev cs).
Proof.
  intros cs. exists (lista_de cs).
  split; [exact (insertar_todos_lista_de cs [])|].
  split; [apply length_nodos|]. split; [apply contenido_lista_de|].
  cbn [lista_de ListaDeCarga.mem ListaDeCarga.tail]. rewrite length_nodos.
  destruct cs as [|c0 cs0] eqn:E; [reflexivity|]. rewrite <- E.
  assert (0 < length cs)%nat by (subst cs; cbn; lia).
  rewrite recorrer_atras_nodos by lia.
  replace (S (pred (length cs))) with (length cs) by lia.
  rewrite take_ge by lia. reflexivity.
Qed.

(** The destructor's walk from node [i], with the nodes before it freed
    already, frees all the nodes. *)
Lemma liberar_nodos cs fuel : forall i,
  (i < length cs)%nat -> (length cs - i <= fuel)%nat ->
  liberar NodoCarga.next fuel
    (replicate i None ++ map Some (drop i (nodos cs))) (Some i)
  = Some (replicate (length cs) None).
Proof.
  induction fuel as [|fuel IH]; intros i Hi Hf; [lia|].
  destruct (lookup_lt_is_Some_2 cs i Hi) as [ci Hci].
  assert (nodos cs !! i = Some (nodo (length cs) i ci)) as Hni
    by (rewrite nodos_lookup, Hci; reflexivity).
  rewrite (drop_S _ _ _ Hni). cbn [map liberar delete].
  rewrite lookup_app_r by (rewrite length_replicate; lia).
  rewrite length_replicate, Nat.sub_diag. cbn [lookup list_lookup].
  rewrite insert_app_r_alt by (rewrite length_replicate; lia).
  rewrite length_replicate, Nat.sub_diag. cbn [insert list_insert].
  change (replicate i None ++ None :: map Some (drop (S i) (nodos cs)))
    with (replicate i (@None NodoCarga.t) ++ [None] ++ map Some (drop (S i) (nodos cs))).
  rewrite app_assoc.
  replace (replicate i (@None NodoCarga.t) ++ [None]) with (replicate (S i) (@None NodoCarga.t))
    by (rewrite replicate_S_end; reflexivity).
  unfold nodo. cbn [NodoCarga.next].
  destruct (Nat.eqb_spec (S i) (length cs)) as [E|E].
  - destruct fuel; cbn [liberar];
      rewrite drop_ge by (rewrite length_nodos; lia);
      cbn [map]; rewrite app_nil_r, E; reflexivity.
  - apply IH; lia.
Qed.

Lemma destructor_lista_de cs :
  ListaDeCarga.destructor (lista_de cs) = Some (replicate (length cs) None).
Proof.
  unfold ListaDeCarga.destructor.
  destruct cs as [|c0 cs0] eqn:E; [reflexivity|]. rewrite <- E.
  assert (0 < length cs)%nat by (subst cs; cbn; lia).
  replace (ListaDeCarga.head (lista_de cs)) with (Some 0%nat) by (subst cs; reflexivity).
  replace (ListaDeCarga.mem (lista_de cs)) with (nodos cs) by reflexivity.
  rewrite length_nodos.
  apply (liberar_nodos cs (length cs) 0); lia.
Qed.

Lemma procesar_todas_alcanzable ts : forall st st1 o,
  estado_alcanzable st -> procesar_todas ts st = Some (st1, o) ->
  estado_alcanzable st1.
Proof.
  induction ts as [|t ts IH]; intros st st1 o Hst H.
  - injection H as <- _. exact Hst.
  - cbn [procesar_todas] in H.
    destruct (procesar t st) as [[st2 o2]|] eqn:E; [|discriminate H].
    cbn [bind] in H.
    destruct (procesar_todas ts st2) as [[st3 o3]|] eqn:E3; [|discriminate H].
    injection H as <- _.
    eapply IH; [|exact E3]. eapply ea_procesar; [exact Hst|exact E].
Qed.

Lemma estado_alcanzable_tras ts : estado_alcanzable (estado_tras ts).
Proof.
  unfold estado_tras.
  destruct (procesar_todas ts estado_inicial) as [[st o]|] eqn:E.
  - eapply procesar_todas_alcanzable; [|exact E].
    exact (ea_inicial _ new_rotor_inicial).
  - exact (ea_inicial _ new_rotor_inicial).
Qed.

(** X10: in every state the loop of [main] can be in, the destructor of
    the list returns and frees every node of the list, none twice and none
    read after it was freed. *)
Theorem X10_destructor_de_la_lista :
  forall st,
    estado_alcanzable st ->
    ListaDeCarga.destructor (carga st)
    = Some (replicate (length (ListaDeCarga.mem (carga st))) None).
Proof.
  intros st Hst. destruct (estado_alcanzable_forma st Hst) as (h & cs & Hh & ->).
  cbn [carga]. rewrite destructor_lista_de.
  cbn [lista_de ListaDeCarga.mem]. rewrite length_nodos. reflexivity.
Qed.

Lemma X10_destructor_de_la_lista_witness :
  ListaDeCarga.destructor
    (carga (estado_tras [TramaLoad "H"; TramaMap 2; TramaLoad "A"; TramaLoad " "]))
  = Some [None; None; None].
Proof.
  apply (X10_destructor_de_la_lista
           (estado_tras [TramaLoad "H"; TramaMap 2; TramaLoad "A"; TramaLoad " "])).
  apply estado_alcanzable_tras.
Defined.

(** X11: for a list filled by insertions, [imprimirMensaje] writes each
    character between brackets, in the order of insertion, and
    [imprimirMensajeFinal] writes the characters as they are, after its
    heading. *)
Theorem X11_mensajes_impresos :
  forall cs l o,
    insertar_todos cs ListaDeCarga.new = Some (l, o) ->
    ListaDeCarga.imprimirMensaje l
    = Some (tt, T "Mensaje: " ++ concat (map (fun d => T "[" ++ [d] ++ T "]") cs) ++ endl)
    /\ ListaDeCarga.imprimirMensajeFinal l
       = Some (tt, T "MENSAJE OCULTO ENSAMBLADO:" ++ endl ++ cs ++ endl).
Proof.
  intros cs l o H. destruct (insertar_todos_new cs l o H) as [-> _].
  unfold ListaDeCarga.imprimirMensaje, ListaDeCarga.imprimirMensajeFinal.
  rewrite contenido_lista_de. cbn [deref bind ret cout app]. split.
  - do 3 f_equal. f_equal. f_equal. apply map_ext. intros d.
    destruct (Ascii.eqb_spec d " ") as [->|_]; reflexivity.
  - reflexivity.
Qed.

Lemma X11_mensajes_impresos_witness :
  ListaDeCarga.imprimirMensaje (lista_de (T "HOLA"))
  = Some (tt, T "Mensaje: " ++ concat (map (fun d => T "[" ++ [d] ++ T "]") (T "HOLA")) ++ endl)
  /\ ListaDeCarga.imprimirMensajeFinal (lista_de (T "HOLA"))
     = Some (tt, T "MENSAJE OCULTO ENSAMBLADO:" ++ endl ++ T "HOLA" ++ endl).
Proof.
  apply (X11_mensajes_impresos (T "HOLA") (lista_de (T "HOLA")) []).
  vm_compute. reflexivity.
Defined.

(** ** Further properties of the frames *)

(** X12: from every state the loop can be in, a LOAD frame returns, leaves
    the rotor as it is and adds exactly the character [getMapeo] gives at
    the end of the list; a MAP frame returns, leaves the list as it is and
    leaves the rotor as [rotar] leaves it. *)
Theorem X12_tramas_independientes :
  forall st,
    estado_alcanzable st ->
    (forall f, exists st1 o dec cs,
       procesar (TramaLoad f) st = Some (st1, o) /\
       rotor st1 = rotor st /\
       RotorDeMapeo.getMapeo f (rotor st) = Some dec /\
       ListaDeCarga.contenido (carga st) = Some cs /\
       ListaDeCarga.contenido (carga st1) = Some (cs ++ [dec])) /\
    (forall n, exists st1 o o1,
       procesar (TramaMap n) st = Some (st1, o) /\
       carga st1 = carga st /\
       RotorDeMapeo.rotar n (rotor st) = Some (rotor st1, o1)).
Proof.
  intros st Hst. destruct (estado_alcanzable_forma st Hst) as (h & cs & Hh & ->).
  split.
  - intros f. destruct (getMapeo_total h f Hh) as [dec Hdec].
    destruct (procesar_load f cs h dec Hh Hdec) as [o Ho].
    eexists _, o, dec, cs. split; [exact Ho|]. cbn [rotor carga].
    split; [reflexivity|]. split; [exact Hdec|].
    split; apply contenido_lista_de.
  - intros n. destruct (procesar_map n (lista_de cs) h Hh) as [o Ho].
    destruct (rotar_forma n h Hh) as [o1 Ho1].
    eexists _, o, o1. split; [exact Ho|]. cbn [rotor carga].
    split; [reflexivity|exact Ho1].
Qed.

Lemma X12_tramas_independientes_witness :
  (forall f, exists st1 o dec cs,
     procesar (TramaLoad f) estado_inicial = Some (st1, o) /\
     rotor st1 = rotor estado_inicial /\
     RotorDeMapeo.getMapeo f (rotor estado_inicial) = Some dec /\
     ListaDeCarga.contenido (carga estado_inicial) = Some cs /\
     ListaDeCarga.contenido (carga st1) = Some (cs ++ [dec])) /\
  (forall n, exists st1 o o1,
     procesar (TramaMap n) estado_inicial = Some (st1, o) /\
     carga st1 = carga estado_inicial /\
     RotorDeMapeo.rotar n (rotor estado_inicial) = Some (rotor st1, o1)).
Proof.
  exact (X12_tramas_independientes estado_inicial (ea_inicial _ new_rotor_inicial)).
Defined.

(** ** Further properties of [trim] *)

Lemma saltar_espacios_partes s :
  exists e, s = e ++ saltar_espacios s /\ espacios e /\
            isspace (hd "x"%char (saltar_espacios s)) = false.
Proof.
  induction s as [|ch s (e & He & Hesp & Hhd)].
  - exists []. repeat split. constructor.
  - cbn [saltar_espacios]. destruct (isspace ch) eqn:Hch.
    + exists (ch :: e). split; [cbn [app]; f_equal; exact He|].
      split; [constructor; assumption|exact Hhd].
    + exists []. split; [reflexivity|]. split; [constructor|exact Hch].
Qed.

Lemma cortar_final_partes s :
  exists e, s = cortar_final s ++ e /\ espacios e /\
            isspace (List.last (cortar_final s) "x"%char) = false.
Proof.
  destruct (saltar_espacios_partes (rev s)) as (e & He & Hesp & Hhd).
  exists (rev e). unfold cortar_final. split; [|split].
  - rewrite <- rev_app_distr, <- He, rev_involutive. reflexivity.
  - apply espacios_rev. assumption.
  - destruct (saltar_espacios (rev s)) as [|x t]; [reflexivity|].
    cbn [rev]. rewrite last_last. exact Hhd.
Qed.

Lemma cortar_final_primero s :
  isspace (hd "x"%char s) = false -> isspace (hd "x"%char (cortar_final s)) = false.
Proof.
  destruct s as [|x t]; [intros _; reflexivity|]. cbn [hd]. intros Hx.
  change (x :: t) with ([] ++ x :: t).
  rewrite cortar_final_medio by assumption. exact Hx.
Qed.

Lemma trim_extremos s :
  isspace (hd "x"%char (trim s)) = false /\
  isspace (List.last (trim s) "x"%char) = false.
Proof.
  unfold trim.
  destruct (saltar_espacios_partes s) as (_ & _ & _ & Hhd).
  destruct (cortar_final_partes (saltar_espacios s)) as (_ & _ & _ & Hlast).
  split; [apply cortar_final_primero; exact Hhd|exact Hlast].
Qed.

Lemma last_defecto {A} (l : list A) d1 d2 :
  l <> [] -> List.last l d1 = List.last l d2.
Proof.
  induction l as [|x l IH]; [contradiction|]. intros _.
  destruct l as [|y l]; [reflexivity|].
  change (List.last (x :: y :: l) d1) with (List.last (y :: l) d1).
  change (List.last (x :: y :: l) d2) with (List.last (y :: l) d2).
  apply IH. discriminate.
Qed.

(** X13: [trim] leaves a middle part of the string: what it cuts off in
    front and behind is whitespace only, and what it leaves neither starts
    nor ends with whitespace. *)
Theorem X13_trim_partes :
  forall s,
    exists e1 e2,
      s = e1 ++ trim s ++ e2 /\ espacios e1 /\ espacios e2 /\
      isspace (hd "x"%char (trim s)) = false /\
      isspace (List.last (trim s) "x"%char) = false.
Proof.
  intros s.
  destruct (saltar_espacios_partes s) as (e1 & He1 & Hesp1 & _).
  destruct (cortar_final_partes (saltar_espacios s)) as (e2 & He2 & Hesp2 & _).
  exists e1, e2. split; [|split; [assumption|split; [assumption|]]].
  - unfold trim. rewrite <- He2. exact He1.
  - apply trim_extremos.
Qed.

(** X14: [trim] does nothing to a string it has trimmed. *)
Theorem X14_trim_idempotente :
  forall s, trim (trim s) = trim s.
Proof.
  intros s. destruct (trim_extremos s) as [Hhd Hlast].
  destruct (trim s) as [|x t] eqn:E; [reflexivity|].
  pose proof (trim_nucleo [] (x :: t) [] ltac:(constructor) ltac:(constructor)) as H.
  cbn [app] in H. rewrite app_nil_r in H. apply H.
  - exact Hhd.
  - rewrite (last_defecto (x :: t) " "%char "x"%char) by discriminate. exact Hlast.
Qed.

(** ** Further properties of the parser *)

Lemma trim_app_l e s : espacios e -> trim (e ++ s) = trim s.
Proof. intros He. unfold trim. rewrite saltar_espacios_app by assumption. reflexivity. Qed.

Lemma trim_app_r s e : espacios e -> trim (s ++ e) = trim s.
Proof.
  intros He. unfold trim.
  destruct (saltar_espacios_partes s) as (e0 & Hs & He0 & Hhd).
  destruct (saltar_espacios s) as [|x t] eqn:E.
  - rewrite app_nil_r in Hs. subst e0.
    rewrite saltar_espacios_todos by (apply Forall_app; split; assumption).
    reflexivity.
  - cbn [hd] in Hhd. rewrite Hs at 1. rewrite <- app_assoc.
    rewrite saltar_espacios_app by assumption.
    cbn [app]. rewrite saltar_espacios_cons by assumption.
    change (x :: t ++ e) with ((x :: t) ++ e).
    apply cortar_final_app_espacios. assumption.
Qed.

Lemma c_str_app l x : sin_NUL l -> c_str (l ++ x) = l ++ c_str x.
Proof.
  induction 1 as [|ch l Hch _ IH]; [reflexivity|].
  cbn [app c_str]. destruct (Ascii.eqb_spec ch NUL); [contradiction|].
  rewrite IH. reflexivity.
Qed.

(** X15: whitespace in front of a line and behind it does not change what
    the parser makes of the line, as long as the whole fits the buffer. *)
Theorem X15_espacios_alrededor :
  forall e1 l e2,
    espacios e1 -> espacios e2 ->
    sin_NUL (e1 ++ l ++ e2) -> (length (e1 ++ l ++ e2) <= 127)%nat ->
    parseLinea (e1 ++ l ++ e2) = parseLinea l.
Proof.
  intros e1 l e2 He1 He2 Hnul Hlen.
  assert (sin_NUL l) as Hl.
  { apply Forall_app in Hnul as [_ H]. apply Forall_app in H as [H _]. exact H. }
  assert (length l <= 127)%nat as Hll by (rewrite !length_app in Hlen; lia).
  unfold parseLinea.
  rewrite (copiar_a_buffer_corta _ Hnul Hlen), (copiar_a_buffer_corta _ Hl Hll).
  rewrite trim_app_l, trim_app_r by assumption. reflexivity.
Qed.

Lemma X15_espacios_alrededor_witness :
  parseLinea (T "  " ++ T "L,H" ++ T " ") = parseLinea (T "L,H").
Proof.
  apply (X15_espacios_alrededor (T "  ") (T "L,H") (T " ")).
  - repeat constructor.
  - repeat constructor.
  - repeat constructor; discriminate.
  - cbn. lia.
Defined.

(** X16: the parser looks at the first 127 characters of a line only:
    whatever follows them changes nothing. *)
Theorem X16_solo_127_caracteres :
  forall l extra,
    sin_NUL l -> length l = 127%nat ->
    parseLinea (l ++ extra) = parseLinea l.
Proof.
  intros l extra Hnul Hlen. unfold parseLinea.
  assert (copiar_a_buffer (l ++ extra) = l) as ->.
  { unfold copiar_a_buffer. rewrite c_str_app by assumption.
    rewrite <- Hlen. apply take_app_length. }
  rewrite copiar_a_buffer_corta by (assumption || lia). reflexivity.
Qed.

Lemma X16_solo_127_caracteres_witness :
  parseLinea ((T "L,H" ++ repeat " "%char 124) ++ T ",X")
  = parseLinea (T "L,H" ++ repeat " "%char 124).
Proof.
  apply (X16_solo_127_caracteres (T "L,H" ++ repeat " "%char 124) (T ",X")).
  - repeat constructor; discriminate.
  - reflexivity.
Defined.

Lemma code_cero ch : code ch = 0 -> ch = NUL.
Proof. intros H. apply code_iny. rewrite H. reflexivity. Qed.

Lemma tolower_no_NUL ch : ch <> NUL -> code (tolower ch) <> 0.
Proof.
  intros Hch. unfold tolower.
  destruct ((65 <=? code ch) && (code ch <=? 90)) eqn:E.
  - apply andb_true_iff in E as [E1 E2]. apply Z.leb_le in E1, E2.
    rewrite code_char; lia.
  - intros H. apply Hch, code_cero, H.
Qed.

(** [strcasecmp] gives 0 exactly for strings that are equal once in lower
    case. *)
Lemma strcasecmp_cero a : forall b,
  sin_NUL a -> sin_NUL b ->
  strcasecmp a b = 0 <-> map tolower a = map tolower b.
Proof.
  induction a as [|x a IH]; intros [|y b] Ha Hb; cbn [strcasecmp map].
  - split; reflexivity.
  - apply Forall_cons in Hb as [Hy _]. pose proof (tolower_no_NUL y Hy).
    split; [lia|discriminate].
  - apply Forall_cons in Ha as [Hx _]. pose proof (tolower_no_NUL x Hx).
    split; [lia|discriminate].
  - apply Forall_cons in Ha as [Hx Ha]. apply Forall_cons in Hb as [Hy Hb].
    destruct (Z.eqb_spec (code (tolower x) - code (tolower y)) 0) as [E|E].
    + assert (tolower x = tolower y) as Exy by (apply code_iny; lia).
      rewrite (IH b Ha Hb), Exy. split; [intros ->; reflexivity|].
      intros [= H]. exact H.
    + split; [lia|]. intros [= H _]. rewrite H in E. lia.
Qed.

Lemma tolower_s ch : tolower ch = "s"%char -> ch = "S"%char \/ ch = "s"%char.
Proof.
  unfold tolower.
  destruct ((65 <=? code ch) && (code ch <=? 90)) eqn:E; [|right; assumption].
  apply andb_true_iff in E as [E1 E2]. apply Z.leb_le in E1, E2.
  intros H. left. apply code_iny. apply (f_equal code) in H.
  rewrite code_char in H by lia. change (code "s") with 115 in H.
  change (code "S") with 83. lia.
Qed.

Lemma trim_vacio s : trim s = [] -> espacios s.
Proof.
  intros H. destruct (ultimo_no_espacio s) as [He|(a & ch & e & -> & Hch & He)];
    [assumption|].
  rewrite (trim_cortado a ch e) in H by assumption. unfold trim in H.
  rewrite saltar_espacios_medio, cortar_final_medio in H by assumption.
  destruct (saltar_espacios a); discriminate H.
Qed.

Lemma c_str_sin_NUL s : sin_NUL (c_str s).
Proof.
  induction s as [|ch s IH]; [constructor|].
  cbn [c_str]. destruct (Ascii.eqb_spec ch NUL); [constructor|].
  constructor; assumption.
Qed.

Lemma copiar_a_buffer_sin_NUL linea : sin_NUL (copiar_a_buffer linea).
Proof. unfold copiar_a_buffer. apply Forall_take, c_str_sin_NUL. Qed.

(** The argument [strtok] finds after the type token. *)
Lemma argumento_de_resto cs arg fin :
  comas cs -> sin_coma arg -> ~ espacios arg ->
  fin = [] \/ (exists resto, fin = ","%char :: resto) ->
  exists arg1,
    fst (strtok (cortar_final (cs ++ arg ++ fin))) = Some arg1 /\
    trim arg1 = trim arg.
Proof.
  intros Hcs Harg Hne Hfin.
  assert (arg <> []) as Hnil by (intros ->; apply Hne; constructor).
  destruct Hfin as [-> | [resto ->]].
  - destruct (ultimo_no_espacio arg) as [He|(a & ch & e & -> & Hch & He)];
      [contradiction|].
    exists (a ++ [ch]). rewrite app_nil_r, (trim_cortado a ch e) by assumption.
    split; [|reflexivity].
    rewrite app_assoc, cortar_final_medio, cortar_final_espacios by assumption.
    rewrite <- app_assoc. cbn [app].
    rewrite strtok_token_fin; [reflexivity|assumption|destruct a; discriminate|].
    apply Forall_app in Harg as [Ha Hr]. apply Forall_cons in Hr as [Hc _].
    apply Forall_app. split; [assumption|]. constructor; [assumption|constructor].
  - exists arg. split; [|reflexivity].
    rewrite (app_assoc cs arg), cortar_final_medio by apply coma_no_espacio.
    rewrite <- app_assoc, strtok_token by assumption. reflexivity.
Qed.

(** The LOAD branch on an argument that is not blank. *)
Lemma trama_load_argumento resto arg :
  fst (strtok resto) = Some arg -> trim arg <> [] -> sin_NUL (trim arg) ->
  (map tolower (trim arg) = T "space" ->
   trama_load resto = Some (Some (TramaLoad " "), [])) /\
  (map tolower (trim arg) <> T "space" ->
   trama_load resto = Some (Some (TramaLoad (primero (trim arg))), [])).
Proof.
  intros Hs Hne Hnul. unfold trama_load. rewrite Hs. cbv zeta.
  pose proof (strcasecmp_cero (trim arg) (T "Space") Hnul
                ltac:(repeat constructor; discriminate)) as Hcmp.
  change (map tolower (T "Space")) with (T "space") in Hcmp.
  split; intros H.
  - apply Hcmp in H as H0. rewrite H0. cbn [Z.eqb].
    destruct (trim arg) as [|x t]; [discriminate H|].
    cbn [map] in H. injection H as Hx _. cbn [primero hd].
    destruct (tolower_s x Hx) as [-> | ->]; reflexivity.
  - assert ((strcasecmp (trim arg) (T "Space") =? 0) = false) as ->
      by (apply Z.eqb_neq; intros E; apply H, Hcmp, E).
    rewrite andb_false_r.
    destruct (trim arg) as [|x [|y t]]; [contradiction|reflexivity|reflexivity].
Qed.

(** X17: in a LOAD line the argument is the first field after the type
    that is not empty.  When it holds more than whitespace, the frame
    carries the space if the trimmed argument is the word Space in any
    mix of cases, and otherwise the first character of the trimmed
    argument, whatever follows that character. *)
Theorem X17_argumento_de_load :
  forall linea e1 ty e2 cs arg fin,
    copiar_a_buffer linea = e1 ++ ty :: e2 ++ ","%char :: cs ++ arg ++ fin ->
    espacios e1 -> espacios e2 -> ty = "L"%char \/ ty = "l"%char ->
    comas cs -> sin_coma arg -> ~ espacios arg ->
    fin = [] \/ (exists resto, fin = ","%char :: resto) ->
    (map tolower (trim arg) = T "space" ->
     parseLinea linea = Some (Some (TramaLoad " "), [])) /\
    (map tolower (trim arg) <> T "space" ->
     parseLinea linea = Some (Some (TramaLoad (primero (trim arg))), [])).
Proof.
  intros linea e1 ty e2 cs arg fin Hbuf He1 He2 Hty Hcs Harg Hne Hfin.
  assert (palabra [ty]) as Hpal
    by (destruct Hty as [-> | ->]; apply palabra_uno; (reflexivity || discriminate)).
  rewrite (parse_cabecera_coma linea e1 [ty] e2 (cs ++ arg ++ fin)) by assumption.
  rewrite por_tipo_L by assumption.
  destruct (argumento_de_resto cs arg fin Hcs Harg Hne Hfin) as (arg1 & Hs & Ht).
  rewrite <- Ht. apply trama_load_argumento; [assumption| |].
  - rewrite Ht. intros E. apply Hne, trim_vacio, E.
  - rewrite Ht. pose proof (copiar_a_buffer_sin_NUL linea) as Hnul.
    rewrite Hbuf in Hnul. unfold sin_NUL in *. rewrite Forall_forall in Hnul |- *.
    intros x Hx. apply Hnul. apply list_elem_of_In. apply list_elem_of_In in Hx.
    apply trim_In in Hx. apply in_or_app. right. right.
    apply in_or_app. right. right. apply in_or_app. right.
    apply in_or_app. left. exact Hx.
Qed.

Lemma X17_argumento_de_load_witness :
  (map tolower (trim (T " sPaCe ")) = T "space" ->
   parseLinea (T " l ,, sPaCe ,x") = Some (Some (TramaLoad " "), [])) /\
  (map tolower (trim (T " sPaCe ")) <> T "space" ->
   parseLinea (T " l ,, sPaCe ,x")
   = Some (Some (TramaLoad (primero (trim (T " sPaCe ")))), [])).
Proof.
  apply (X17_argumento_de_load (T " l ,, sPaCe ,x") (T " ") "l"%char (T " ")
           (T ",") (T " sPaCe ") (T ",x")).
  - reflexivity.
  - repeat constructor.
  - repeat constructor.
  - right. reflexivity.
  - repeat constructor.
  - repeat constructor; discriminate.
  - intros H. apply Forall_cons in H as [_ H]. apply Forall_inv in H. discriminate H.
  - right. exists (T "x"). reflexivity.
Defined.

(** X18: the parser writes about a line only when it gives no frame for
    it, and then at most one of three texts: the L or the M line lacks its
    argument, or the type token, which is printed, is unknown. *)
Theorem X18_texto_del_parser :
  forall linea,
    (forall t o, parseLinea linea = Some (Some t, o) -> o = []) /\
    (forall o, parseLinea linea = Some (None, o) ->
       o = [] \/
       o = T "Trama L sin argumento." ++ endl \/
       o = T "Trama M sin argumento." ++ endl \/
       exists tok,
         tok <> [] /\ sin_coma tok /\ (forall x, In x tok -> In x (c_str linea)) /\
         o = T "Tipo de trama desconocido: " ++ tok ++ endl).
Proof.
  intros linea. unfold parseLinea. cbv zeta.
  destruct (_ =? _)%nat; [split; [discriminate|intros o [= <-]; left; reflexivity]|].
  destruct (strtok _) as [[token|] resto] eqn:E1;
    [|split; [discriminate|intros o [= <-]; left; reflexivity]].
  destruct (length (trim token) =? 0)%nat eqn:El;
    [split; [discriminate|intros o [= <-]; left; reflexivity]|].
  unfold por_tipo.
  destruct (es_tipo _ "L" "l").
  { unfold trama_load. destruct (fst (strtok resto)) as [arg|].
    - cbv zeta. unfold ret.
      destruct (_ && _); [split; [intros t o [= _ <-]; reflexivity|discriminate]|].
      destruct (length (trim arg) =? 1)%nat;
        [split; [intros t o [= _ <-]; reflexivity|discriminate]|].
      destruct (1 <? length (trim arg))%nat;
        [split; [intros t o [= _ <-]; reflexivity|discriminate]|].
      split; [discriminate|intros o [= <-]; left; reflexivity].
    - split; [discriminate|]. intros o [= <-]. right. left. reflexivity. }
  destruct (es_tipo _ "M" "m").
  { unfold trama_map. destruct (fst (strtok resto)) as [arg|].
    - cbv zeta. unfold ret. split; [intros t o [= _ <-]; reflexivity|discriminate].
    - split; [discriminate|]. intros o [= <-]. right. right. left. reflexivity. }
  split; [discriminate|]. intros o [= <-]. right. right. right.
  exists (trim token).
  destruct (strtok_partes _ _ _ E1) as (Hsc & Hin & _).
  split; [|split; [|split]].
  - intros E. rewrite E in El. discriminate El.
  - unfold sin_coma in *. rewrite Forall_forall in Hsc |- *.
    intros x Hx. apply Hsc. apply list_elem_of_In. apply list_elem_of_In in Hx.
    apply trim_In, Hx.
  - intros x Hx. eapply take_In. apply trim_In, Hin, trim_In, Hx.
  - reflexivity.
Qed.

(** X19: the letter of the type counts in either case: a line with the
    type l is treated as the same line with the type L, and m as M, text
    written included. *)
Theorem X19_tipo_en_minuscula :
  forall l1 l2 e1 ty1 ty2 e2 fin,
    copiar_a_buffer l1 = e1 ++ ty1 :: e2 ++ fin ->
    copiar_a_buffer l2 = e1 ++ ty2 :: e2 ++ fin ->
    espacios e1 -> espacios e2 ->
    fin = [] \/ (exists resto, fin = ","%char :: resto) ->
    (ty1 = "l"%char /\ ty2 = "L"%char) \/ (ty1 = "m"%char /\ ty2 = "M"%char) ->
    parseLinea l1 = parseLinea l2.
Proof.
  intros l1 l2 e1 ty1 ty2 e2 fin H1 H2 He1 He2 Hfin Hty.
  assert (palabra [ty1] /\ palabra [ty2] /\
          forall r, por_tipo [ty1] r = por_tipo [ty2] r) as (Hp1 & Hp2 & Hpor).
  { destruct Hty as [[-> ->] | [-> ->]];
      (split; [|split]; [apply palabra_uno; [reflexivity|discriminate]
                        |apply palabra_uno; [reflexivity|discriminate]
                        |reflexivity]). }
  destruct Hfin as [-> | [resto ->]].
  - rewrite (parse_cabecera_fin l1 e1 [ty1] e2), (parse_cabecera_fin l2 e1 [ty2] e2);
      try assumption; [apply Hpor| |].
    + rewrite H2, app_nil_r. reflexivity.
    + rewrite H1, app_nil_r. reflexivity.
  - rewrite (parse_cabecera_coma l1 e1 [ty1] e2 resto),
            (parse_cabecera_coma l2 e1 [ty2] e2 resto); try assumption.
    apply Hpor.
Qed.

Lemma X19_tipo_en_minuscula_witness :
  parseLinea (T " m , -3") = parseLinea (T " M , -3").
Proof.
  apply (X19_tipo_en_minuscula (T " m , -3") (T " M , -3") (T " ") "m"%char "M"%char
           (T " ") (T ", -3")).
  - reflexivity.
  - reflexivity.
  - repeat constructor.
  - repeat constructor.
  - right. exists (T " -3"). reflexivity.
  - right. split; reflexivity.
Defined.

(** ** The reader *)

Lemma fgets_leer_partes k : forall s,
  s = fst (SerialReader.fgets_leer k s) ++ snd (SerialReader.fgets_leer k s) /\
  (length (fst (SerialReader.fgets_leer k s)) <= k)%nat /\
  ((0 < k)%nat -> s <> [] -> fst (SerialReader.fgets_leer k s) <> []).
Proof.
  induction k as [|k IH]; intros s.
  - cbn. repeat split; [lia|lia].
  - destruct s as [|ch r]; [cbn; repeat split; [lia|intros _ H; contradiction]|].
    cbn [SerialReader.fgets_leer].
    destruct (Ascii.eqb ch (char 10)).
    + cbn. repeat split; [lia|discriminate].
    + destruct (IH r) as (H1 & H2 & _).
      destruct (SerialReader.fgets_leer k r) as [a b]. cbn [fst snd] in *.
      repeat split; [cbn; f_equal; exact H1|cbn; lia|discriminate].
Qed.

Lemma fgets_leer_linea l : forall k resto,
  sin_LF l -> (length l < k)%nat ->
  SerialReader.fgets_leer k (l ++ char 10 :: resto) = (l ++ [char 10], resto).
Proof.
  induction l as [|ch l IH]; intros k resto Hl Hk;
    (destruct k as [|k]; [cbn in Hk; lia|]).
  - reflexivity.
  - apply Forall_cons in Hl as [Hch Hl]. cbn [app SerialReader.fgets_leer].
    destruct (Ascii.eqb_spec ch (char 10)); [contradiction|].
    rewrite IH by (assumption || (cbn in Hk; lia)). reflexivity.
Qed.

Lemma fgets_leer_fin l : forall k,
  sin_LF l -> (length l <= k)%nat -> SerialReader.fgets_leer k l = (l, []).
Proof.
  induction l as [|ch l IH]; intros k Hl Hk; [destruct k; reflexivity|].
  destruct k as [|k]; [cbn in Hk; lia|].
  apply Forall_cons in Hl as [Hch Hl]. cbn [SerialReader.fgets_leer].
  destruct (Ascii.eqb_spec ch (char 10)); [contradiction|].
  rewrite IH by (assumption || (cbn in Hk; lia)). reflexivity.
Qed.

Lemma fgets_leer_larga l : forall k resto,
  sin_LF l -> length l = k ->
  SerialReader.fgets_leer k (l ++ resto) = (l, resto).
Proof.
  induction l as [|ch l IH]; intros k resto Hl Hk.
  - cbn in Hk. subst k. reflexivity.
  - destruct k as [|k]; [discriminate Hk|].
    apply Forall_cons in Hl as [Hch Hl]. cbn [app SerialReader.fgets_leer].
    destruct (Ascii.eqb_spec ch (char 10)); [contradiction|].
    rewrite IH by (assumption || (cbn in Hk; lia)). reflexivity.
Qed.

Lemma saltar_fin_de_linea_app e s :
  Forall fin_de_linea e ->
  SerialReader.saltar_fin_de_linea (e ++ s) = SerialReader.saltar_fin_de_linea s.
Proof.
  induction 1 as [|ch e Hch _ IH]; [reflexivity|].
  cbn [app SerialReader.saltar_fin_de_linea].
  destruct Hch as [-> | ->]; exact IH.
Qed.

Lemma saltar_fin_de_linea_cons ch s :
  ~ fin_de_linea ch ->
  SerialReader.saltar_fin_de_linea (ch :: s) = ch :: s.
Proof.
  intros H. cbn [SerialReader.saltar_fin_de_linea].
  destruct (Ascii.eqb_spec ch (char 10)) as [E|_]; [exfalso; apply H; left; exact E|].
  destruct (Ascii.eqb_spec ch (char 13)) as [E|_]; [exfalso; apply H; right; exact E|].
  reflexivity.
Qed.

Lemma saltar_fin_de_linea_partes s :
  exists e, s = e ++ SerialReader.saltar_fin_de_linea s /\ Forall fin_de_linea e /\
            ~ fin_de_linea (hd "x"%char (SerialReader.saltar_fin_de_linea s)).
Proof.
  assert (~ fin_de_linea "x"%char) as Hx by (intros [H|H]; discriminate H).
  induction s as [|ch s (e & He & Hesp & Hhd)].
  - exists []. repeat split; [constructor|exact Hx].
  - cbn [SerialReader.saltar_fin_de_linea].
    destruct (Ascii.eqb_spec ch (char 10)) as [E|N1].
    { exists (ch :: e). split; [cbn [app orb]; f_equal; exact He|].
      split; [constructor; [left; exact E|assumption]|exact Hhd]. }
    destruct (Ascii.eqb_spec ch (char 13)) as [E|N2].
    { exists (ch :: e). split; [cbn [app orb]; f_equal; exact He|].
      split; [constructor; [right; exact E|assumption]|exact Hhd]. }
    exists []. split; [reflexivity|]. split; [constructor|].
    cbn [orb hd]. intros [H|H]; contradiction.
Qed.

(** What [leerLinea] leaves of a line and its end. *)
Lemma quitar_fin_de_linea_limpia l e :
  ~ fin_de_linea (List.last l "x"%char) -> Forall fin_de_linea e ->
  SerialReader.quitar_fin_de_linea (l ++ e) = l.
Proof.
  intros Hl He. unfold SerialReader.quitar_fin_de_linea.
  rewrite rev_app_distr, saltar_fin_de_linea_app by (apply Forall_rev; assumption).
  destruct l as [|x t] using rev_ind; [reflexivity|].
  rewrite last_last in Hl. rewrite rev_app_distr. cbn [rev app].
  rewrite saltar_fin_de_linea_cons by assumption.
  cbn [rev]. rewrite rev_involutive. reflexivity.
Qed.

Lemma quitar_fin_de_linea_ultimo s :
  ~ fin_de_linea (List.last (SerialReader.quitar_fin_de_linea s) "x"%char) /\
  (length (SerialReader.quitar_fin_de_linea s) <= length s)%nat /\
  (forall x, In x (SerialReader.quitar_fin_de_linea s) -> In x s).
Proof.
  unfold SerialReader.quitar_fin_de_linea.
  destruct (saltar_fin_de_linea_partes (rev s)) as (e & He & _ & Hhd).
  split; [|split].
  - destruct (SerialReader.saltar_fin_de_linea (rev s)) as [|x t]; [exact Hhd|].
    cbn [rev]. rewrite last_last. exact Hhd.
  - apply (f_equal length) in He. rewrite length_app, !length_rev in He.
    rewrite length_rev. lia.
  - intros x Hx. apply in_rev in Hx. apply in_rev. rewrite He.
    apply in_or_app. right. exact Hx.
Qed.





(** One read of a line with its end. *)
Lemma leerLinea_linea l t resto :
  linea_limpia l -> terminador t ->
  SerialReader.leerLinea 256 (SerialReader.mk (Some (l ++ t ++ resto)))
  = Some (l, SerialReader.mk (Some resto)).
Proof.
  intros (Hnul & Hlf & Hlast & Hlen) Ht.
  unfold SerialReader.leerLinea. cbn [SerialReader.f].
  assert (SerialReader.fgets 256 (l ++ t ++ resto)
          = Some (SerialReader.fgets_leer 255 (l ++ t ++ resto))) as ->.
  { destruct Ht as [-> | ->]; destruct l; reflexivity. }
  assert (SerialReader.fgets_leer 255 (l ++ t ++ resto) = (l ++ t, resto)) as ->.
  { destruct Ht as [-> | ->].
    - cbn [app]. apply fgets_leer_linea; [assumption|lia].
    - change (l ++ [char 13; char 10] ++ resto)
        with (l ++ [char 13] ++ char 10 :: resto).
      rewrite app_assoc. rewrite fgets_leer_linea.
      + rewrite <- app_assoc. reflexivity.
      + apply Forall_app. split; [assumption|]. constructor; [discriminate|constructor].
      + rewrite length_app. cbn [length]. lia. }
  rewrite c_str_corta.
  - rewrite quitar_fin_de_linea_limpia; [reflexivity|assumption|].
    destruct Ht as [-> | ->].
    + constructor; [left; reflexivity|constructor].
    + constructor; [right; reflexivity|].
      constructor; [left; reflexivity|constructor].
  - apply Forall_app. split; [assumption|].
    destruct Ht as [-> | ->]; repeat constructor; discriminate.
Qed.

Lemma leer_todas_lineas lts : forall fuel,
  Forall (fun lt => linea_limpia (fst lt) /\ terminador (snd lt)) lts ->
  (length (concat (map (fun lt => fst lt ++ snd lt) lts)) < fuel)%nat ->
  leer_todas fuel (SerialReader.mk (Some (concat (map (fun lt => fst lt ++ snd lt) lts))))
  = map fst lts.
Proof.
  induction lts as [|[l t] lts IH]; intros fuel Hall Hf.
  - destruct fuel as [|fuel]; [cbn in Hf; lia|]. reflexivity.
  - apply Forall_cons in Hall as [[Hl Ht] Hall]. cbn [fst snd] in Hl, Ht.
    cbn [map concat fst snd] in *. rewrite <- app_assoc in *.
    destruct fuel as [|fuel]; [lia|].
    cbn [leer_todas]. rewrite leerLinea_linea by assumption.
    rewrite IH; [reflexivity|assumption|].
    rewrite !length_app in Hf.
    assert (0 < length t)%nat by (destruct Ht as [-> | ->]; cbn; lia).
    lia.
Qed.

(** X21: a file made of clean lines, each ended by LF or by CR LF, is read
    back as exactly those lines, whatever mix of the two ends it uses; a
    last line without an end of line is read too. *)
Theorem X21_lineas_de_un_archivo :
  forall lts,
    Forall (fun lt => linea_limpia (fst lt) /\ terminador (snd lt)) lts ->
    lineas_de (concat (map (fun lt => fst lt ++ snd lt) lts)) = map fst lts /\
    (forall ult,
       linea_limpia ult -> ult <> [] ->
       lineas_de (concat (map (fun lt => fst lt ++ snd lt) lts) ++ ult)
       = map fst lts ++ [ult]).
Proof.
  intros lts Hall. split.
  - unfold lineas_de. apply leer_todas_lineas; [assumption|lia].
  - intros ult (Hnul & Hlf & Hlast & Hlen) Hne. unfold lineas_de.
    set (fuel := S (length (concat (map (fun lt => fst lt ++ snd lt) lts) ++ ult))).
    assert (length (concat (map (fun lt => fst lt ++ snd lt) lts)) + length ult < fuel)%nat
      as Hf by (subst fuel; rewrite length_app; lia).
    clearbody fuel. revert fuel Hf.
    induction lts as [|[l t] lts IH]; intros fuel Hf.
    + cbn [map concat app length] in *.
      destruct fuel as [|fuel]; [lia|]. cbn [leer_todas].
      unfold SerialReader.leerLinea. cbn [SerialReader.f].
      assert (SerialReader.fgets 256 ult = Some (SerialReader.fgets_leer 255 ult)) as ->
        by (destruct ult; [contradiction|reflexivity]).
      rewrite fgets_leer_fin by (assumption || lia).
      rewrite c_str_corta by assumption.
      rewrite <- (app_nil_r ult) at 1.
      rewrite quitar_fin_de_linea_limpia by (assumption || constructor).
      destruct fuel; reflexivity.
    + apply Forall_cons in Hall as [[Hl Ht] Hall]. cbn [fst snd] in Hl, Ht.
      cbn [map concat fst snd] in *. rewrite <- !app_assoc in *.
      destruct fuel as [|fuel]; [lia|].
      cbn [leer_todas]. rewrite leerLinea_linea by assumption.
      cbn [app]. f_equal. apply IH; [assumption|].
      rewrite !length_app in Hf.
      assert (0 < length t)%nat by (destruct Ht as [-> | ->]; cbn; lia).
      lia.
Qed.

Lemma X21_lineas_de_un_archivo_witness :
  lineas_de (concat (map (fun lt => fst lt ++ snd lt)
                       [(T "L,H", [char 10]); (T "M,2", [char 13; char 10])]))
  = map fst [(T "L,H", [char 10]); (T "M,2", [char 13; char 10])] /\
  (forall ult,
     linea_limpia ult -> ult <> [] ->
     lineas_de (concat (map (fun lt => fst lt ++ snd lt)
                          [(T "L,H", [char 10]); (T "M,2", [char 13; char 10])]) ++ ult)
     = map fst [(T "L,H", [char 10]); (T "M,2", [char 13; char 10])] ++ [ult]).
Proof.
  apply (X21_lineas_de_un_archivo
           [(T "L,H", [char 10]); (T "M,2", [char 13; char 10])]).
  constructor; [|constructor; [|constructor]]; cbn [fst snd]; split.
  - split; [repeat constructor; discriminate|].
    split; [repeat constructor; discriminate|].
    split; [intros [H|H]; discriminate H|cbn; lia].
  - left. reflexivity.
  - split; [repeat constructor; discriminate|].
    split; [repeat constructor; discriminate|].
    split; [intros [H|H]; discriminate H|cbn; lia].
  - right. reflexivity.
Defined.

(** X22: a line longer than the buffer of [main] is delivered in pieces:
    the first read takes the first 255 characters off the file, gives them
    back with the CR characters at their end cut off, so all of them
    unless the 255th is a CR, and leaves the rest of the line for the next
    reads; so a line of exactly 255 characters and its LF are read as that
    line followed by an empty line. *)
Theorem X22_linea_mas_larga_que_el_buffer :
  forall l resto,
    sin_NUL l -> sin_LF l -> length l = 255%nat ->
    SerialReader.leerLinea 256 (SerialReader.mk (Some (l ++ resto)))
    = Some (SerialReader.quitar_fin_de_linea l, SerialReader.mk (Some resto)) /\
    lineas_de (l ++ [char 10]) = [SerialReader.quitar_fin_de_linea l; []] /\
    (SerialReader.quitar_fin_de_linea l = l
     <-> ~ fin_de_linea (List.last l "x"%char)).
Proof.
  intros l resto Hnul Hlf Hlen.
  assert (forall r, SerialReader.leerLinea 256 (SerialReader.mk (Some (l ++ r)))
                    = Some (SerialReader.quitar_fin_de_linea l,
                            SerialReader.mk (Some r))) as Hread.
  { intros r. unfold SerialReader.leerLinea. cbn [SerialReader.f].
    assert (SerialReader.fgets 256 (l ++ r)
            = Some (SerialReader.fgets_leer 255 (l ++ r))) as ->
      by (destruct l; [discriminate Hlen|reflexivity]).
    rewrite fgets_leer_larga by assumption.
    rewrite c_str_corta by assumption. reflexivity. }
  split; [apply Hread|]. split.
  - unfold lineas_de. rewrite length_app, Hlen.
    cbn [length Nat.add leer_todas]. rewrite Hread. reflexivity.
  - split.
    + intros E. rewrite <- E. apply quitar_fin_de_linea_ultimo.
    + intros Hlast. rewrite <- (app_nil_r l) at 1.
      apply quitar_fin_de_linea_limpia; [assumption|constructor].
Qed.

Lemma X22_linea_mas_larga_que_el_buffer_witness :
  SerialReader.leerLinea 256
    (SerialReader.mk (Some ((T "L,H" ++ repeat "h"%char 251 ++ [char 13]) ++ T "ola")))
  = Some (T "L,H" ++ repeat "h"%char 251, SerialReader.mk (Some (T "ola"))) /\
  lineas_de ((T "L,H" ++ repeat "h"%char 251 ++ [char 13]) ++ [char 10])
  = [T "L,H" ++ repeat "h"%char 251; []] /\
  (SerialReader.quitar_fin_de_linea (T "L,H" ++ repeat "h"%char 251 ++ [char 13])
   = T "L,H" ++ repeat "h"%char 251 ++ [char 13]
   <-> ~ fin_de_linea
         (List.last (T "L,H" ++ repeat "h"%char 251 ++ [char 13]) "x"%char)).
Proof.
  apply (X22_linea_mas_larga_que_el_buffer
           (T "L,H" ++ repeat "h"%char 251 ++ [char 13]) (T "ola")).
  - repeat constructor; discriminate.
  - repeat constructor; discriminate.
  - reflexivity.
Defined.

(** A read by [main] takes at least one character off the file. *)
Lemma leerLinea_consume s linea reader1 :
  SerialReader.leerLinea 256 (SerialReader.mk (Some s)) = Some (linea, reader1) ->
  exists resto, reader1 = SerialReader.mk (Some resto) /\ (length resto < length s)%nat.
Proof.
  unfold SerialReader.leerLinea. cbn [SerialReader.f].
  destruct s as [|ch r] eqn:Es; [discriminate|]. rewrite <- Es.
  assert (s <> []) as Hne by (subst s; discriminate).
  replace (SerialReader.fgets 256 s)
    with (Some (SerialReader.fgets_leer 255 s)) by (subst s; reflexivity).
  destruct (fgets_leer_partes 255 s) as (Happ & _ & Hcons).
  destruct (SerialReader.fgets_leer 255 s) as [a b]. cbn [fst snd] in *.
  intros [= _ <-]. exists b. split; [reflexivity|].
  assert (a <> []) as Ha by (apply Hcons; [lia|assumption]).
  apply (f_equal length) in Happ. rewrite length_app in Happ.
  destruct a; [contradiction|]. cbn [length] in Happ. lia.
Qed.

Lemma bucle_lector_bucle fuel : forall s st,
  (length s < fuel)%nat ->
  bucle_lector fuel (SerialReader.mk (Some s)) st
  = bucle (leer_todas fuel (SerialReader.mk (Some s))) st.
Proof.
  induction fuel as [|fuel IH]; intros s st Hf; [lia|].
  cbn [bucle_lector leer_todas].
  destruct (SerialReader.leerLinea 256 (SerialReader.mk (Some s)))
    as [[linea reader1]|] eqn:E; [|reflexivity].
  destruct (leerLinea_consume s linea reader1 E) as (resto & -> & Hlt).
  cbn [bucle]. apply bind_ext. intros st1. apply IH. lia.
Qed.

(** X23: the loop of [main] over an opened file comes to its end for every
    file, and [main] does with the file what it does with the list of the
    lines [leerLinea] delivers. *)
Theorem X23_main_lee_el_archivo :
  forall archivo, main_archivo archivo = sesion (lineas_de archivo).
Proof.
  intros archivo. unfold main_archivo, sesion, lineas_de. cbv zeta.
  apply bind_ext. intros miRotor.
  rewrite bucle_lector_bucle by lia. reflexivity.
Qed.

(** X24: for every list of lines the run of [main] returns: no line makes
    it fault.  The list then holds the characters expected for the frames
    parsed, and the last thing written is the closing text with exactly
    those characters as the message. *)
Theorem X24_sesion_completa :
  forall lineas,
    exists st o ds,
      sesion lineas = Some (st, o ++ texto_final ds) /\
      decodificados rotor_inicial (tramas_de lineas) = Some ds /\
      ListaDeCarga.contenido (carga st) = Some ds.
Proof.
  intros lineas. unfold sesion. cbv zeta.
  rewrite new_rotor_inicial. cbn [deref bind ret]. rewrite rotor_inicial_forma.
  destruct (bucle_forma lineas 0 [] ltac:(lia)) as (ds & h1 & o & Hh1 & Hds & Hrun).
  change (lista_de []) with ListaDeCarga.new in Hrun. rewrite Hrun.
  cbn [bind cout ret carga app].
  unfold ListaDeCarga.imprimirMensajeFinal. rewrite contenido_lista_de.
  cbn [deref bind ret cout app].
  eexists _, o, ds. split; [|split].
  - unfold texto_final. rewrite !app_nil_r, <- !app_assoc. reflexivity.
  - exact Hds.
  - apply contenido_lista_de.
Qed.

(** X25: a MAP line whose argument reads as a multiple of 26, the
    argument without any digit among them since it reads as 0, is not
    rejected: the parser gives the MAP frame and writes nothing, and the
    turn of the loop leaves the list and the rotor exactly as they were. *)
Theorem X25_map_sin_efecto :
  forall linea e1 ty e2 cs arg fin v st,
    copiar_a_buffer linea = e1 ++ ty :: e2 ++ ","%char :: cs ++ arg ++ fin ->
    espacios e1 -> espacios e2 -> ty = "M"%char \/ ty = "m"%char ->
    comas cs -> sin_coma arg -> ~ espacios arg ->
    fin = [] \/ (exists resto, fin = ","%char :: resto) ->
    prefijo_numerico (trim arg) v -> - 2 ^ 31 <= v < 2 ^ 31 -> v mod 26 = 0 ->
    estado_alcanzable st ->
    parseLinea linea = Some (Some (TramaMap v), []) /\
    exists o, paso linea st = Some (st, o).
Proof.
  intros linea e1 ty e2 cs arg fin v st Hbuf He1 He2 Hty Hcs Harg Hne Hfin
         Hpre Hv Hmod Hst.
  assert (parseLinea linea = Some (Some (TramaMap v), [])) as Hparse.
  { assert (palabra [ty]) as Hpal
      by (destruct Hty as [-> | ->]; apply palabra_uno; (reflexivity || discriminate)).
    rewrite (parse_cabecera_coma linea e1 [ty] e2 (cs ++ arg ++ fin)) by assumption.
    rewrite por_tipo_M by assumption.
    destruct (argumento_de_resto cs arg fin Hcs Harg Hne Hfin) as (arg1 & Hs & Ht).
    rewrite (trama_map_argumento _ arg1 Hs), Ht, (atoi_prefijo _ v Hpre Hv).
    reflexivity. }
  split; [exact Hparse|].
  destruct (estado_alcanzable_forma st Hst) as (h & cs0 & Hh & ->).
  destruct (procesar_map v (lista_de cs0) h Hh) as [o1 Ho1].
  rewrite Hmod in Ho1. change (Z.to_nat 0) with 0%nat in Ho1.
  rewrite Nat.add_0_r, Nat.mod_small in Ho1 by assumption.
  exact (paso_aceptada linea _ [] _ _ o1 Hparse Ho1).
Qed.

Lemma X25_map_sin_efecto_witness :
  parseLinea (T "M,abc") = Some (Some (TramaMap 0), []) /\
  exists o, paso (T "M,abc") estado_inicial = Some (estado_inicial, o).
Proof.
  apply (X25_map_sin_efecto (T "M,abc") [] "M"%char [] [] (T "abc") [] 0 estado_inicial).
  - reflexivity.
  - constructor.
  - constructor.
  - left. reflexivity.
  - constructor.
  - repeat constructor; discriminate.
  - intros H. apply Forall_inv in H. discriminate H.
  - left. reflexivity.
  - apply pn_nada; (reflexivity || discriminate).
  - lia.
  - reflexivity.
  - exact (ea_inicial _ new_rotor_inicial).
Defined.

(** ** Lines by their shape, in general *)

Lemma nucleo_no_vacio tok : nucleo tok -> tok <> [].
Proof. intros (_ & H & _) ->. discriminate H. Qed.

Lemma cortar_final_nucleo pre tok :
  nucleo tok -> cortar_final (pre ++ tok) = pre ++ tok.
Proof.
  intros Hn. pose proof (nucleo_no_vacio tok Hn) as Hne.
  destruct Hn as (_ & _ & Hlast).
  destruct tok as [|y t] using rev_ind; [contradiction|].
  rewrite last_last in Hlast. rewrite app_assoc.
  apply cortar_final_ultimo. exact Hlast.
Qed.

Lemma saltar_espacios_nucleo tok s :
  nucleo tok -> saltar_espacios (tok ++ s) = tok ++ s.
Proof.
  intros (_ & Hhd & _). destruct tok as [|x t]; [discriminate Hhd|].
  cbn [hd] in Hhd. cbn [app]. apply saltar_espacios_cons. exact Hhd.
Qed.

Lemma trim_de_nucleo e1 tok e2 :
  espacios e1 -> espacios e2 -> nucleo tok -> trim (e1 ++ tok ++ e2) = tok.
Proof.
  intros He1 He2 (_ & Hhd & Hlast). apply trim_nucleo; assumption.
Qed.

(** What [trim] leaves of a buffer that holds commas, a token and the
    rest. *)
Lemma trim_del_buffer e1 cs0 ew1 tok ew2 fin :
  espacios e1 -> comas cs0 -> espacios ew1 -> espacios ew2 -> nucleo tok ->
  fin = [] \/ (exists X, fin = ","%char :: X) ->
  exists raw,
    trim raw = tok /\ sin_coma raw /\ raw <> [] /\
    ((fin = [] /\ trim (e1 ++ cs0 ++ ew1 ++ tok ++ ew2 ++ fin) = cs0 ++ raw) \/
     (exists X, fin = ","%char :: X /\
        trim (e1 ++ cs0 ++ ew1 ++ tok ++ ew2 ++ fin)
        = cs0 ++ raw ++ ","%char :: cortar_final X)).
Proof.
  intros He1 Hcs0 Hew1 Hew2 Hn Hfin.
  pose proof (nucleo_no_vacio tok Hn) as Hne.
  assert (sin_coma tok) as Hsc by apply Hn.
  assert (exists ew, espacios ew /\
            saltar_espacios (e1 ++ cs0 ++ ew1 ++ tok ++ ew2 ++ fin)
            = cs0 ++ ew ++ tok ++ ew2 ++ fin) as (ew & Hew & Hsalta).
  { rewrite saltar_espacios_app by assumption.
    destruct Hcs0 as [|c cs0 -> Hcs0].
    - exists []. split; [constructor|]. cbn [app].
      rewrite saltar_espacios_app by assumption.
      apply saltar_espacios_nucleo. assumption.
    - exists ew1. split; [assumption|]. cbn [app].
      apply saltar_espacios_cons. reflexivity. }
  unfold trim. rewrite Hsalta.
  destruct Hfin as [-> | [X ->]].
  - exists (ew ++ tok). split; [|split; [|split]].
    + pose proof (trim_de_nucleo ew tok [] Hew ltac:(constructor) Hn) as H.
      rewrite app_nil_r in H. exact H.
    + apply Forall_app. split; [apply espacios_sin_coma|]; assumption.
    + destruct ew; [cbn [app]; assumption|discriminate].
    + left. split; [reflexivity|].
      rewrite app_nil_r.
      replace (cs0 ++ ew ++ tok ++ ew2) with (((cs0 ++ ew) ++ tok) ++ ew2)
        by (rewrite <- !app_assoc; reflexivity).
      rewrite cortar_final_app_espacios by assumption.
      rewrite cortar_final_nucleo by assumption.
      rewrite <- !app_assoc. reflexivity.
  - exists (ew ++ tok ++ ew2). split; [|split; [|split]].
    + apply trim_de_nucleo; assumption.
    + apply Forall_app. split; [apply espacios_sin_coma; assumption|].
      apply Forall_app. split; [|apply espacios_sin_coma]; assumption.
    + destruct ew; [|discriminate]. cbn [app].
      destruct tok; [contradiction|discriminate].
    + right. exists X. split; [reflexivity|].
      replace (cs0 ++ ew ++ tok ++ ew2 ++ ","%char :: X)
        with ((cs0 ++ ew ++ tok ++ ew2) ++ ","%char :: X)
        by (rewrite <- !app_assoc; reflexivity).
      rewrite cortar_final_medio by apply coma_no_espacio.
      rewrite <- !app_assoc. reflexivity.
Qed.

(** The parser on a buffer that holds commas, a token and the rest: it
    comes to the tests on the type with that token. *)
Lemma parse_cabecera_general linea e1 cs0 ew1 tok ew2 fin :
  copiar_a_buffer linea = e1 ++ cs0 ++ ew1 ++ tok ++ ew2 ++ fin ->
  espacios e1 -> comas cs0 -> espacios ew1 -> espacios ew2 -> nucleo tok ->
  fin = [] \/ (exists X, fin = ","%char :: X) ->
  parseLinea linea = por_tipo tok (resto_tras fin).
Proof.
  intros Hbuf He1 Hcs0 Hew1 Hew2 Hn Hfin.
  destruct (trim_del_buffer e1 cs0 ew1 tok ew2 fin He1 Hcs0 Hew1 Hew2 Hn Hfin)
    as (raw & Htrim & Hsc & Hne & Hcase).
  pose proof (nucleo_no_vacio tok Hn) as Htok.
  unfold parseLinea. rewrite Hbuf. cbv zeta.
  destruct Hcase as [[-> HB] | (X & -> & HB)]; rewrite HB.
  - rewrite length_no_cero
      by (intros E; apply app_eq_nil in E as [_ E]; contradiction).
    rewrite strtok_token_fin by assumption.
    rewrite Htrim, length_no_cero by assumption. reflexivity.
  - rewrite length_no_cero
      by (intros E; apply app_eq_nil in E as [_ E];
          apply app_eq_nil in E as [E _]; contradiction).
    rewrite strtok_token by assumption.
    rewrite Htrim, length_no_cero by assumption. reflexivity.
Qed.

(** *** From the result back to the shape *)

Lemma saltar_comas_partes s :
  exists cs, s = cs ++ saltar_comas s /\ comas cs.
Proof.
  induction s as [|ch s (cs & Hs & Hcs)]; [exists []; split; [reflexivity|constructor]|].
  cbn [saltar_comas]. destruct (Ascii.eqb_spec ch ",") as [->|_].
  - exists (","%char :: cs). split; [cbn [app]; f_equal; exact Hs|].
    constructor; [reflexivity|assumption].
  - exists []. split; [reflexivity|constructor].
Qed.

Lemma hasta_coma_inv s :
  s = fst (hasta_coma s) ++ ","%char :: snd (hasta_coma s) \/
  (s = fst (hasta_coma s) /\ snd (hasta_coma s) = []).
Proof.
  induction s as [|ch s IH]; [right; split; reflexivity|].
  cbn [hasta_coma]. destruct (Ascii.eqb_spec ch ",") as [->|_].
  - left. reflexivity.
  - destruct (hasta_coma s) as [t r]. cbn [fst snd] in *.
    destruct IH as [IH | [IH ->]].
    + left. cbn [app]. f_equal. exact IH.
    + right. split; [f_equal; exact IH|reflexivity].
Qed.

Lemma strtok_inv s tok r :
  strtok s = (Some tok, r) ->
  exists cs, comas cs /\ tok <> [] /\ sin_coma tok /\
    (s = cs ++ tok ++ ","%char :: r \/ (s = cs ++ tok /\ r = [])).
Proof.
  intros H. destruct (strtok_partes s tok r H) as (Hsc & _ & _).
  unfold strtok in H.
  destruct (saltar_comas_partes s) as (cs & Hs & Hcs).
  destruct (saltar_comas s) as [|ch s1] eqn:E; [discriminate H|].
  pose proof (hasta_coma_inv (ch :: s1)) as Hinv.
  assert (fst (hasta_coma (ch :: s1)) <> []) as Hne.
  { cbn [hasta_coma]. destruct (Ascii.eqb_spec ch ",") as [->|_].
    - exfalso. clear -E.
      induction s as [|x s IH]; [discriminate E|].
      cbn [saltar_comas] in E.
      destruct (Ascii.eqb_spec x ","); [apply IH, E|].
      injection E as -> _. contradiction.
    - destruct (hasta_coma s1). discriminate. }
  destruct (hasta_coma (ch :: s1)) as [t r1]. cbn [fst snd] in *.
  injection H as <- <-.
  exists cs. split; [assumption|]. split; [assumption|]. split; [assumption|].
  destruct Hinv as [Hinv | [Hinv ->]]; rewrite Hs, Hinv.
  - left. reflexivity.
  - right. split; reflexivity.
Qed.


Lemma trim_descompone s :
  exists e1 e2, s = e1 ++ trim s ++ e2 /\ espacios e1 /\ espacios e2.
Proof.
  destruct (saltar_espacios_partes s) as (e1 & He1 & Hesp1 & _).
  destruct (cortar_final_partes (saltar_espacios s)) as (e2 & He2 & Hesp2 & _).
  exists e1, e2. split; [|split; assumption].
  unfold trim. rewrite <- He2. exact He1.
Qed.

Lemma trim_es_nucleo raw :
  sin_coma raw -> trim raw <> [] -> nucleo (trim raw).
Proof.
  intros Hsc Hne. destruct (trim_extremos raw) as [Hhd Hlast].
  split; [|split].
  - unfold sin_coma in *. rewrite Forall_forall in Hsc |- *.
    intros x Hx. apply Hsc. apply list_elem_of_In. apply list_elem_of_In in Hx.
    apply trim_In, Hx.
  - destruct (trim raw); [contradiction|exact Hhd].
  - rewrite (last_defecto (trim raw) " "%char "x"%char) by assumption. exact Hlast.
Qed.

Lemma cortar_final_cortado s : cortar_final (cortar_final s) = cortar_final s.
Proof.
  destruct (cortar_final_partes s) as (_ & _ & _ & Hlast).
  destruct (cortar_final s) as [|y t] using rev_ind; [reflexivity|].
  rewrite last_last in Hlast. apply cortar_final_ultimo. exact Hlast.
Qed.

(** Every line either gives no frame and no text before the tests on the
    type, or holds commas, a token and the rest. *)
Lemma parseLinea_forma linea :
  parseLinea linea = Some (None, []) \/
  exists e1 cs0 ew1 tok ew2 fin,
    copiar_a_buffer linea = e1 ++ cs0 ++ ew1 ++ tok ++ ew2 ++ fin /\
    espacios e1 /\ comas cs0 /\ espacios ew1 /\ espacios ew2 /\ nucleo tok /\
    (fin = [] \/ (exists X, fin = ","%char :: X)).
Proof.
  destruct (trim_descompone (copiar_a_buffer linea)) as (e1 & e3 & Hb & He1 & He3).
  destruct (strtok (trim (copiar_a_buffer linea))) as [[raw|] r] eqn:Es.
  2:{ left. unfold parseLinea. cbv zeta. rewrite Es.
      destruct (_ =? _)%nat; reflexivity. }
  destruct (strtok_inv _ _ _ Es) as (cs & Hcs & Hne & Hsc & Hcase).
  destruct (trim raw) as [|x t] eqn:Et.
  { left. unfold parseLinea. cbv zeta. rewrite Es, Et.
    destruct (_ =? _)%nat; reflexivity. }
  right.
  destruct (trim_descompone raw) as (ew1 & ew2 & Hraw & Hew1 & Hew2).
  assert (nucleo (trim raw)) as Hn
    by (apply trim_es_nucleo; [assumption|rewrite Et; discriminate]).
  destruct Hcase as [HB | [HB ->]].
  - exists e1, cs, ew1, (trim raw), ew2, (","%char :: r ++ e3).
    refine (conj _ (conj He1 (conj Hcs (conj Hew1 (conj Hew2 (conj Hn _))))));
      [|right; eauto].
    rewrite Hb at 1. rewrite HB. rewrite Hraw at 1.
    rewrite <- !app_assoc. reflexivity.
  - exists e1, cs, ew1, (trim raw), (ew2 ++ e3), [].
    refine (conj _ (conj He1 (conj Hcs (conj Hew1 (conj _ (conj Hn _))))));
      [|apply Forall_app; split; assumption|left; reflexivity].
    rewrite Hb at 1. rewrite HB. rewrite Hraw at 1.
    rewrite app_nil_r, <- !app_assoc. reflexivity.
Qed.

Lemma es_tipo_inv token may min :
  es_tipo token may min = true -> exists ty, token = [ty] /\ (ty = may \/ ty = min).
Proof.
  destruct token as [|x [|y t]]; try discriminate. cbn [es_tipo].
  intros H. exists x. split; [reflexivity|].
  apply orb_true_iff in H as [H|H]; [left|right];
    apply Ascii.eqb_eq; exact H.
Qed.


Lemma nucleo_tipo ty :
  ty = "L"%char \/ ty = "l"%char \/ ty = "M"%char \/ ty = "m"%char -> nucleo [ty].
Proof.
  intros [-> | [-> | [-> | ->]]];
    (split; [repeat constructor; discriminate|split; reflexivity]).
Qed.






(** ** Malformed lines, whatever their shape *)



(** ** The argument of a LOAD line *)

Lemma linea_load_argumento buf arg :
  linea_load buf arg ->
  sin_coma arg /\ ~ espacios arg /\ (forall x, In x arg -> In x buf).
Proof.
  destruct 1 as [e1 cs0 ew1 ty ew2 cs arg fin _ _ _ _ _ _ Harg Hne _].
  split; [assumption|]. split; [assumption|].
  intros x H. do 3 (apply in_or_app; right). right.
  apply in_or_app; right. right. apply in_or_app; right.
  apply in_or_app; left. exact H.
Qed.

(** The first character of an argument that is not blank. *)
Lemma primero_de_argumento arg :
  sin_coma arg -> ~ espacios arg ->
  isspace (primero (trim arg)) = false /\ primero (trim arg) <> ","%char /\
  In (primero (trim arg)) arg.
Proof.
  intros Hsc Hne.
  destruct (trim arg) as [|x t] eqn:Et; [exfalso; apply Hne, trim_vacio, Et|].
  cbn [primero hd]. destruct (trim_primero arg x t Et) as [Hx Hin].
  split; [assumption|]. split; [|assumption].
  unfold sin_coma in Hsc. rewrite Forall_forall in Hsc.
  apply Hsc. apply list_elem_of_In. exact Hin.
Qed.

(** The frame the parser makes of a LOAD line with an argument. *)
Lemma parseLinea_linea_load buf arg :
  linea_load buf arg ->
  forall linea, copiar_a_buffer linea = buf ->
    (map tolower (trim arg) = T "space" ->
     parseLinea linea = Some (Some (TramaLoad " "), [])) /\
    (map tolower (trim arg) <> T "space" ->
     parseLinea linea = Some (Some (TramaLoad (primero (trim arg))), [])).
Proof.
  intros Hll linea Hbuf.
  destruct (linea_load_argumento buf arg Hll) as (_ & _ & Hin).
  destruct Hll as [e1 cs0 ew1 ty ew2 cs arg fin He1 Hcs0 Hew1 Hew2 Hty Hcs Harg Hne Hfin].
  assert (nucleo [ty]) as Hn by (apply nucleo_tipo; tauto).
  assert (parseLinea linea
          = por_tipo [ty] (resto_tras (","%char :: cs ++ arg ++ fin))) as ->.
  { apply (parse_cabecera_general linea e1 cs0 ew1 [ty] ew2);
      [rewrite Hbuf; reflexivity|assumption|assumption|assumption
      |assumption|assumption|right; eauto]. }
  rewrite por_tipo_L by assumption. cbn [resto_tras].
  destruct (argumento_de_resto cs arg fin Hcs Harg Hne Hfin) as (arg1 & Hs & Ht).
  rewrite <- Ht. apply trama_load_argumento; [assumption| |].
  - rewrite Ht. intros E. apply Hne, trim_vacio, E.
  - rewrite Ht. pose proof (copiar_a_buffer_sin_NUL linea) as Hnul.
    rewrite Hbuf in Hnul. unfold sin_NUL in *. rewrite Forall_forall in Hnul |- *.
    intros x Hx. apply Hnul. apply list_elem_of_In. apply list_elem_of_In in Hx.
    apply Hin, trim_In, Hx.
Qed.

(** A line that gives a LOAD frame is a LOAD line with an argument. *)
Lemma linea_load_de_trama linea f o :
  parseLinea linea = Some (Some (TramaLoad f), o) ->
  exists arg, linea_load (copiar_a_buffer linea) arg.
Proof.
  intros H.
  destruct (parseLinea_forma linea)
    as [E | (e1 & cs0 & ew1 & tok & ew2 & fin & Hb & He1 & Hcs0 & Hew1 & Hew2 & Hn & Hfin)].
  { rewrite E in H. discriminate H. }
  rewrite (parse_cabecera_general linea _ _ _ _ _ _ Hb He1 Hcs0 Hew1 Hew2 Hn Hfin) in H.
  destruct (es_tipo tok "L" "l") eqn:EL.
  2:{ exfalso. unfold por_tipo in H. rewrite EL in H.
      destruct (es_tipo tok "M" "m"); [|discriminate H].
      unfold trama_map in H. destruct (fst (strtok _)); discriminate H. }
  apply es_tipo_inv in EL as (ty & -> & Hty).
  rewrite por_tipo_L in H by assumption.
  destruct (strtok (resto_tras fin)) as [[arg1|] r] eqn:Es.
  2:{ rewrite trama_load_sin_argumento in H by (rewrite Es; reflexivity).
      discriminate H. }
  assert (~ espacios arg1) as Hne1.
  { intros He.
    rewrite (trama_load_en_blanco _ arg1) in H
      by (try rewrite Es; (reflexivity || assumption)).
    discriminate H. }
  destruct (strtok_inv _ _ _ Es) as (cs & Hcs & Hnil & Hsc & Hcase).
  destruct Hfin as [-> | [X ->]].
  { cbn [resto_tras] in Es. rewrite strtok_nil in Es. discriminate Es. }
  cbn [resto_tras] in Hcase.
  destruct (cortar_final_partes X) as (e3 & HX & He3 & _).
  rewrite Hb.
  destruct Hcase as [HR | [HR ->]]; rewrite HR in HX; rewrite HX.
  - exists arg1.
    replace (e1 ++ cs0 ++ ew1 ++ [ty] ++ ew2 ++
             ","%char :: (cs ++ arg1 ++ ","%char :: r) ++ e3)
      with (e1 ++ cs0 ++ ew1 ++ ty :: ew2 ++
            ","%char :: cs ++ arg1 ++ ","%char :: r ++ e3)
      by (cbn [app]; rewrite <- !app_assoc; reflexivity).
    apply ll_argumento; try assumption. right. eauto.
  - exists (arg1 ++ e3).
    replace (e1 ++ cs0 ++ ew1 ++ [ty] ++ ew2 ++ ","%char :: (cs ++ arg1) ++ e3)
      with (e1 ++ cs0 ++ ew1 ++ ty :: ew2 ++
            ","%char :: cs ++ (arg1 ++ e3) ++ [])
      by (cbn [app]; rewrite app_nil_r, <- !app_assoc; reflexivity).
    apply ll_argumento; try assumption.
    + apply Forall_app. split; [assumption|apply espacios_sin_coma; assumption].
    + intros He. apply Forall_app in He as [He _]. contradiction.
    + left. reflexivity.
Qed.

(** C9, as the program has it: a line gives a LOAD frame exactly when,
    after the commas and the whitespace in front, it holds the type L or
    l, a comma, and an argument that is not blank: the first field after
    the type that is not empty.  The frame carries the space exactly when
    the trimmed argument is the word Space in any mix of cases; otherwise
    it carries the first character of the trimmed argument, which is taken
    from the line and is neither whitespace nor a comma.  Every such
    character is accepted, letter or not. *)
Theorem C9_fragmento_de_load :
  (forall linea f o,
     parseLinea linea = Some (Some (TramaLoad f), o) ->
     o = [] /\
     (exists arg,
        linea_load (copiar_a_buffer linea) arg /\
        (f = " "%char <-> map tolower (trim arg) = T "space") /\
        (f <> " "%char -> f = primero (trim arg))) /\
     (f = " "%char \/
      (In f (c_str linea) /\ isspace f = false /\ f <> ","%char))) /\
  (forall linea arg,
     linea_load (copiar_a_buffer linea) arg ->
     (map tolower (trim arg) = T "space" ->
      parseLinea linea = Some (Some (TramaLoad " "), [])) /\
     (map tolower (trim arg) <> T "space" ->
      parseLinea linea = Some (Some (TramaLoad (primero (trim arg))), []) /\
      isspace (primero (trim arg)) = false /\
      primero (trim arg) <> ","%char)) /\
  (forall ch,
     ch <> NUL -> isspace ch = false -> ch <> ","%char ->
     parseLinea (T "L," ++ [ch]) = Some (Some (TramaLoad ch), [])).
Proof.
  split; [|split].
  - intros linea f o H.
    destruct (linea_load_de_trama linea f o H) as (arg & Hll).
    destruct (parseLinea_linea_load _ arg Hll linea eq_refl) as [Hsp Hns].
    destruct (linea_load_argumento _ arg Hll) as (Hsc & Hne & Hin).
    destruct (primero_de_argumento arg Hsc Hne) as (Hx & Hco & Hp).
    destruct (List.list_eq_dec Ascii.ascii_dec (map tolower (trim arg)) (T "space"))
      as [E|E].
    + rewrite (Hsp E) in H. injection H as <- <-.
      split; [reflexivity|]. split; [|left; reflexivity].
      exists arg. split; [exact Hll|]. split; [tauto|].
      intros Hf. contradiction Hf. reflexivity.
    + rewrite (Hns E) in H. injection H as <- <-.
      split; [reflexivity|]. split.
      * exists arg. split; [exact Hll|]. split; [|reflexivity].
        split; [|intros E1; contradiction].
        intros Ef. rewrite Ef in Hx. discriminate Hx.
      * right. split; [|split; assumption].
        eapply take_In. apply Hin, Hp.
  - intros linea arg Hll.
    destruct (parseLinea_linea_load _ arg Hll linea eq_refl) as [Hsp Hns].
    destruct (linea_load_argumento _ arg Hll) as (Hsc & Hne & _).
    destruct (primero_de_argumento arg Hsc Hne) as (Hx & Hco & _).
    split; [exact Hsp|]. intros E. split; [apply Hns, E|]. split; assumption.
  - intros ch Hnul Hsp Hco.
    assert (linea_load (copiar_a_buffer (T "L," ++ [ch])) [ch]) as Hll.
    { unfold copiar_a_buffer. rewrite c_str_corta
        by (repeat constructor; (discriminate || assumption)).
      apply (ll_argumento [] [] [] "L"%char [] [] [ch] []);
        [constructor|constructor|constructor|constructor|left; reflexivity
        |constructor|constructor; [assumption|constructor]| |left; reflexivity].
      intros He. apply Forall_inv in He. rewrite Hsp in He. discriminate He. }
    destruct (parseLinea_linea_load _ _ Hll (T "L," ++ [ch]) eq_refl) as [_ Hns].
    pose proof (trim_uno [] ch [] ltac:(constructor) ltac:(constructor) Hsp) as Ht.
    cbn [app] in Ht. rewrite Ht in Hns. cbn [primero hd] in Hns.
    apply Hns. cbn [map]. discriminate.
Qed.

Lemma C9_fragmento_de_load_witness :
  [] = @nil ascii /\
  (exists arg,
     linea_load (copiar_a_buffer (T " l ,, 5x ,y")) arg /\
     ("5"%char = " "%char <-> map tolower (trim arg) = T "space") /\
     ("5"%char <> " "%char -> "5"%char = primero (trim arg))) /\
  ("5"%char = " "%char \/
   (In "5"%char (c_str (T " l ,, 5x ,y")) /\ isspace "5" = false /\
    "5"%char <> ","%char)).
Proof.
  apply (proj1 C9_fragmento_de_load (T " l ,, 5x ,y") "5"%char []).
  vm_compute. reflexivity.
Defined.
